(** * Black-Scholes-Merton option valuation: model and verified properties

    A shallow embedding of the option-pricing code of the notebooks
    [Options/Option_Valuation.ipynb] (the function [BSM_call_value] and the
    Monte Carlo estimator cell) and
    [Options/Financial_Derivative_Option_Class.ipynb] (the classes [Option]
    and [OptionVega]).

    Arithmetic is idealised: a Python [float] and a numpy [float64] hold a
    real number, so rounding and overflow are outside the model.  What is
    kept of the floating-point behaviour is what the control flow of the code
    depends on: the exceptions of Python's [/], [math.log] and [math.sqrt],
    and numpy's [nan] and infinities, which replace exceptions there. *)

From Stdlib Require Import Reals Lra Lia ZArith List Bool Permutation.
Import ListNotations.
Local Open Scope R_scope.

(* ================================================================= *)
(** ** Python exceptions as an error monad *)

Module Py.

(** The two built-in exceptions that the arithmetic of the notebooks can
    raise. *)
Inductive exn : Type :=
| ZeroDivisionError
| ValueError.

Inductive result (A : Type) : Type :=
| Ok (a : A)
| Raise (e : exn).

Arguments Ok {A} a.
Arguments Raise {A} e.

Definition bind {A B : Type} (m : result A) (k : A -> result B) : result B :=
  match m with
  | Ok a => k a
  | Raise e => Raise e
  end.

Definition raises {A : Type} (m : result A) : Prop :=
  exists e, m = Raise e.

Definition returns {A : Type} (m : result A) : Prop :=
  exists a, m = Ok a.

(** [float(x)]: a conversion without effect on a real. *)
Definition float (x : R) : R := x.

(** [x / y] on Python numbers. *)
Definition truediv (x y : R) : result R :=
  if Req_dec_T y 0 then Raise ZeroDivisionError else Ok (x / y).

(** [math.log(x)]: a domain error outside [x > 0]. *)
Definition math_log (x : R) : result R :=
  if Rlt_dec 0 x then Ok (ln x) else Raise ValueError.

(** [math.sqrt(x)]: a domain error for [x < 0]. *)
Definition math_sqrt (x : R) : result R :=
  if Rlt_dec x 0 then Raise ValueError else Ok (sqrt x).

(** [math.exp(x)]. *)
Definition math_exp (x : R) : R := exp x.

End Py.

Notation "x <- m ;; k" := (Py.bind m (fun x => k))
  (at level 61, m at next level, right associativity).

(* ================================================================= *)
(** ** Tools of real analysis *)

Module Calculus.

Lemma derivable_pt_lim_value (f : R -> R) (x l l' : R) :
  derivable_pt_lim f x l -> l = l' -> derivable_pt_lim f x l'.
Proof. intros H <-. exact H. Qed.

(** A derivative at [x] depends only on the function near [x]. *)
Lemma derivable_pt_lim_local (f g : R -> R) (x l d : R) :
  0 < d -> (forall y, Rabs (y - x) < d -> g y = f y) ->
  derivable_pt_lim f x l -> derivable_pt_lim g x l.
Proof.
  intros Hd Hfg Hf eps Heps.
  destruct (Hf eps Heps) as [delta Hdelta].
  assert (Hm : 0 < Rmin delta d)
    by (apply Rmin_pos; [apply cond_pos | exact Hd]).
  exists (mkposreal _ Hm). simpl. intros h Hh Hlt.
  rewrite (Hfg (x + h)), (Hfg x).
  - apply Hdelta; [exact Hh |].
    eapply Rlt_le_trans; [exact Hlt | apply Rmin_l].
  - replace (x - x) with 0 by ring. rewrite Rabs_R0. exact Hd.
  - replace (x + h - x) with h by ring.
    eapply Rlt_le_trans; [exact Hlt | apply Rmin_r].
Qed.

(** A function with a non-negative derivative on [a, b] is non-decreasing
    there. *)
Lemma increasing_of_derivative (f f' : R -> R) (a b : R) :
  (forall c, a <= c <= b -> derivable_pt_lim f c (f' c)) ->
  (forall c, a <= c <= b -> 0 <= f' c) ->
  forall x y, a <= x -> x <= y -> y <= b -> f x <= f y.
Proof.
  intros Hd Hpos x y Hax Hxy Hyb.
  destruct (Rle_lt_or_eq_dec x y Hxy) as [Hlt | ->]; [| lra].
  destruct (MVT_cor2 f f' x y Hlt) as [c [Hc Hin]].
  - intros c Hc. apply Hd. lra.
  - assert (0 <= f' c) by (apply Hpos; lra).
    assert (0 <= f' c * (y - x)) by (apply Rmult_le_pos; lra). lra.
Qed.

Lemma affine_derivable (a b x : R) :
  derivable_pt_lim (fun d => a * d + b) x a.
Proof.
  intros eps Heps. exists (mkposreal 1 Rlt_0_1). intros h Hh _.
  replace ((a * (x + h) + b - (a * x + b)) / h - a) with 0 by (field; exact Hh).
  rewrite Rabs_R0. exact Heps.
Qed.

Lemma neg_derivable (x : R) : derivable_pt_lim (fun x => - x) x (-1).
Proof. apply (derivable_pt_lim_opp id x 1), derivable_pt_lim_id. Qed.

Lemma scaled_derivable (f : R -> R) (a x l : R) :
  derivable_pt_lim f (a * x) l ->
  derivable_pt_lim (fun y => f (a * y)) x (l * a).
Proof.
  intros H.
  apply (derivable_pt_lim_comp (fun y => a * y) f); [| exact H].
  apply derivable_pt_lim_value with (l := a * 1); [| ring].
  apply (derivable_pt_lim_scal id a x 1), derivable_pt_lim_id.
Qed.

Lemma shifted_derivable (f : R -> R) (a x l : R) :
  derivable_pt_lim f (x - a) l ->
  derivable_pt_lim (fun y => f (y - a)) x l.
Proof.
  intros H.
  apply derivable_pt_lim_value with (l := l * 1); [| ring].
  apply (derivable_pt_lim_comp (fun y => y - a) f); [| exact H].
  apply (derivable_pt_lim_local (fun y => 1 * y + - a)) with (d := 1);
    [lra | intros; ring | apply affine_derivable].
Qed.

Lemma constant_of_zero_derivative (f : R -> R) :
  (forall x, derivable_pt_lim f x 0) -> forall x y, f x = f y.
Proof.
  intros Hf.
  assert (Hle : forall x y, x <= y -> f x = f y).
  { intros x y Hxy. apply Rle_antisym.
    - apply (increasing_of_derivative f (fun _ => 0) x y);
        [intros c _; apply Hf | intros c _; lra | lra ..].
    - assert (- f x <= - f y); [| lra].
      apply (increasing_of_derivative (fun t => - f t) (fun _ => -0) x y);
        [intros c _; apply (derivable_pt_lim_opp f c 0), Hf
        | intros c _; lra | lra ..]. }
  intros x y. destruct (Rle_dec x y) as [H | H].
  - apply Hle. exact H.
  - symmetry. apply Hle. lra.
Qed.

Lemma exp_pow (x : R) (n : nat) : exp x ^ n = exp (INR n * x).
Proof.
  induction n as [| n IH].
  - simpl. rewrite Rmult_0_l, exp_0. reflexivity.
  - rewrite S_INR. simpl pow. rewrite IH, <- exp_plus. f_equal. ring.
Qed.

Lemma sq_le (a b : R) : 0 <= a -> a <= b -> a ^ 2 <= b ^ 2.
Proof. intros Ha Hab. apply pow_incr. split; assumption. Qed.

(** A bound that holds up to [1 / (k + 1)] for every [k] holds exactly. *)
Lemma le_of_forall_inv (x a : R) :
  (forall k : nat, x <= a + / INR (S k)) -> x <= a.
Proof.
  intros H. destruct (Rle_lt_dec x a) as [Hle | Hlt]; [exact Hle |].
  exfalso.
  destruct (INR_unbounded (/ (x - a))) as [k Hk].
  assert (Hpos : 0 < / (x - a)) by (apply Rinv_0_lt_compat; lra).
  assert (HS : / (x - a) < INR (S k)) by (rewrite S_INR; lra).
  assert (Hinv : / INR (S k) < x - a).
  { rewrite <- (Rinv_inv (x - a)).
    apply Rinv_lt_contravar; [| exact HS].
    apply Rmult_lt_0_compat; lra. }
  specialize (H k). lra.
Qed.

Lemma sqrt_between (a b x : R) :
  0 <= a -> 0 <= b -> a ^ 2 <= x <= b ^ 2 -> a <= sqrt x <= b.
Proof.
  intros Ha Hb [H1 H2]. split.
  - rewrite <- (sqrt_pow2 a Ha). apply sqrt_le_1_alt. exact H1.
  - rewrite <- (sqrt_pow2 b Hb). apply sqrt_le_1_alt. exact H2.
Qed.

Lemma ln_lower (a y : R) : exp a <= y -> a <= ln y.
Proof.
  intros H. assert (Hy : 0 < y) by (generalize (exp_pos a); lra).
  destruct (Rle_lt_dec a (ln y)) as [Hle | Hlt]; [exact Hle |].
  exfalso. apply exp_increasing in Hlt. rewrite exp_ln in Hlt by exact Hy. lra.
Qed.

Lemma ln_upper (a y : R) : 0 < y -> y <= exp a -> ln y <= a.
Proof.
  intros Hy H.
  destruct (Rle_lt_dec (ln y) a) as [Hle | Hlt]; [exact Hle |].
  exfalso. apply exp_increasing in Hlt. rewrite exp_ln in Hlt by exact Hy. lra.
Qed.

End Calculus.

Import Calculus.

(* ================================================================= *)
(** ** The standard normal distribution *)

Module Normal.

(** The density [exp(-x**2/2) / sqrt(2*pi)] of [scipy.stats.norm]. *)
Definition pdf (x : R) : R := exp (- x ^ 2 / 2) / sqrt (2 * PI).

Lemma sqrt_2PI_pos : 0 < sqrt (2 * PI).
Proof. apply sqrt_lt_R0. generalize PI_RGT_0. lra. Qed.

Lemma pdf_pos (x : R) : 0 < pdf x.
Proof.
  unfold pdf.
  apply Rdiv_lt_0_compat; [apply exp_pos | apply sqrt_2PI_pos].
Qed.

Lemma pdf_continuous : continuity pdf.
Proof. unfold pdf. reg. Qed.

Lemma pdf_integrable (a b : R) : Riemann_integrable pdf a b.
Proof.
  destruct (Rle_dec a b) as [Hab | Hab].
  - apply continuity_implies_RiemannInt;
      [exact Hab | intros; apply pdf_continuous].
  - apply RiemannInt_P1, continuity_implies_RiemannInt;
      [lra | intros; apply pdf_continuous].
Qed.

(** The integral of the density from [a] to [b] (signed: [a <= b] is not
    required). *)
Definition integral (a b : R) : R := RiemannInt (pdf_integrable a b).

Lemma integral_chasles (a b c : R) :
  integral a b + integral b c = integral a c.
Proof. apply RiemannInt_P26. Qed.

Lemma integral_refl (a : R) : integral a a = 0.
Proof. apply RiemannInt_P9. Qed.

Lemma integral_nonneg (a b : R) : a <= b -> 0 <= integral a b.
Proof.
  intros Hab. unfold integral.
  replace 0 with (RiemannInt (RiemannInt_P14 a b 0)).
  - apply RiemannInt_P19; [exact Hab |].
    intros x _. unfold fct_cte. left; apply pdf_pos.
  - rewrite RiemannInt_P15. ring.
Qed.

(** Fundamental theorem of calculus for the density, on the whole line. *)
Lemma integral_derivable (a x : R) :
  derivable_pt_lim (integral a) x (pdf x).
Proof.
  assert (Hle : x - 1 <= x + 1) by lra.
  assert (C0 : forall y, x - 1 <= y <= x + 1 -> continuity_pt pdf y)
    by (intros; apply pdf_continuous).
  assert (Hin : x - 1 <= x <= x + 1) by lra.
  pose proof (RiemannInt_P28 Hle C0 Hin) as HP.
  apply derivable_pt_lim_local
    with (f := fun y => integral a (x - 1) + primitive Hle (FTC_P1 Hle C0) y)
         (d := 1).
  - lra.
  - intros y Hy. apply Rabs_def2 in Hy. unfold primitive.
    destruct (Rle_dec (x - 1) y) as [H1 | H1]; [| lra].
    destruct (Rle_dec y (x + 1)) as [H2 | H2]; [| lra].
    rewrite <- (integral_chasles a (x - 1) y). f_equal. apply RiemannInt_P5.
  - replace (pdf x) with (0 + pdf x) by ring.
    apply (derivable_pt_lim_plus (fun _ => integral a (x - 1)));
      [apply derivable_pt_lim_const | exact HP].
Qed.

(** An exponential envelope of the density, used to bound its lower tail. *)
Definition envelope (y : R) : R := exp (1 / 2 + y) / sqrt (2 * PI).

Lemma pdf_le_envelope (y : R) : pdf y <= envelope y.
Proof.
  unfold pdf, envelope. apply Rmult_le_compat_r.
  - left. apply Rinv_0_lt_compat, sqrt_2PI_pos.
  - assert (Hle : - y ^ 2 / 2 <= 1 / 2 + y).
    { pose proof (pow2_ge_0 (y + 1)) as Hsq.
      replace ((y + 1) ^ 2) with (y ^ 2 + 2 * y + 1) in Hsq by ring. lra. }
    destruct Hle as [H | H].
    + left. apply exp_increasing. exact H.
    + rewrite H. right. reflexivity.
Qed.

Lemma envelope_derivable (y : R) : derivable_pt_lim envelope y (envelope y).
Proof.
  unfold envelope.
  assert (H : derivable_pt_lim (fun y => exp (1 / 2 + y)) y (exp (1 / 2 + y))).
  { replace (exp (1 / 2 + y)) with (exp (1 / 2 + y) * (0 + 1)) at 1 by ring.
    apply (derivable_pt_lim_comp (fun y => 1 / 2 + y) exp).
    - apply (derivable_pt_lim_plus (fun _ => 1 / 2) id);
        [apply derivable_pt_lim_const | apply derivable_pt_lim_id].
    - apply derivable_pt_lim_exp. }
  replace (exp (1 / 2 + y) / sqrt (2 * PI))
    with (exp (1 / 2 + y) * (fun _ => / sqrt (2 * PI)) y + exp (1 / 2 + y) * 0)
    by (unfold Rdiv; ring).
  apply (derivable_pt_lim_mult (fun y => exp (1 / 2 + y))
                               (fun _ => / sqrt (2 * PI)));
    [exact H | apply derivable_pt_lim_const].
Qed.

Lemma integral_tail_bound (x : R) : x <= 0 -> integral x 0 <= envelope 0.
Proof.
  intros Hx.
  pose (H := fun y => envelope y - integral 0 y).
  assert (Hinc : H x <= H 0).
  { apply (increasing_of_derivative H (fun y => envelope y - pdf y) x 0);
      try lra.
    - intros c _. unfold H.
      apply (derivable_pt_lim_minus envelope (integral 0));
        [apply envelope_derivable | apply integral_derivable].
    - intros c _. generalize (pdf_le_envelope c). lra. }
  unfold H in Hinc. rewrite integral_refl in Hinc.
  pose proof (integral_chasles x 0 x) as Hc. rewrite integral_refl in Hc.
  assert (0 < envelope x)
    by (unfold envelope;
        apply Rdiv_lt_0_compat; [apply exp_pos | apply sqrt_2PI_pos]).
  lra.
Qed.

(** The mass of [[-n, 0]]: a bounded, growing sequence. *)
Definition tail (n : nat) : R := integral (- INR n) 0.

Lemma tail_growing : Un_growing tail.
Proof.
  intros n. unfold tail.
  rewrite <- (integral_chasles (- INR (S n)) (- INR n) 0).
  assert (0 <= integral (- INR (S n)) (- INR n)).
  { apply integral_nonneg. rewrite S_INR. lra. }
  lra.
Qed.

Lemma tail_bounded : has_ub tail.
Proof.
  exists (envelope 0). intros x [n ->]. apply integral_tail_bound.
  generalize (pos_INR n). lra.
Qed.

(** The mass of the half line below 0. *)
Definition lower_mass : R :=
  proj1_sig (growing_cv tail tail_growing tail_bounded).

(** The cumulative distribution function: the integral of the density over
    [(-oo, x]] (see [cdf_improper]). *)
Definition cdf (x : R) : R := lower_mass + integral 0 x.

Lemma lower_mass_limit : Un_cv tail lower_mass.
Proof. unfold lower_mass. apply proj2_sig. Qed.

Lemma cdf_improper (x : R) : Un_cv (fun n => integral (- INR n) x) (cdf x).
Proof.
  intros eps Heps. destruct (lower_mass_limit eps Heps) as [N HN].
  exists N. intros n Hn. specialize (HN n Hn).
  unfold cdf, Rdist in *. rewrite <- (integral_chasles (- INR n) 0 x).
  unfold tail in HN.
  replace (integral (- INR n) 0 + integral 0 x - (lower_mass + integral 0 x))
    with (integral (- INR n) 0 - lower_mass) by ring.
  exact HN.
Qed.

Lemma cdf_derivable (x : R) : derivable_pt_lim cdf x (pdf x).
Proof.
  unfold cdf. replace (pdf x) with (0 + pdf x) by ring.
  apply (derivable_pt_lim_plus (fun _ => lower_mass) (integral 0));
    [apply derivable_pt_lim_const | apply integral_derivable].
Qed.

Lemma cdf_diff (x y : R) : cdf y - cdf x = integral x y.
Proof.
  unfold cdf. rewrite <- (integral_chasles x 0 y).
  pose proof (integral_chasles x 0 x) as H. rewrite integral_refl in H. lra.
Qed.

Lemma cdf_increasing (x y : R) : x <= y -> cdf x <= cdf y.
Proof.
  intros H. generalize (integral_nonneg x y H), (cdf_diff x y). lra.
Qed.

Lemma cdf_nonneg (x : R) : 0 <= cdf x.
Proof.
  destruct (INR_unbounded (- x)) as [n Hn].
  assert (Hle : tail n <= lower_mass)
    by (apply growing_ineq; [apply tail_growing | apply lower_mass_limit]).
  assert (0 <= integral (- INR n) x) by (apply integral_nonneg; lra).
  unfold cdf, tail in *.
  rewrite <- (integral_chasles (- INR n) 0 x) in H. lra.
Qed.

Lemma cdf_vanishes (eps : R) :
  0 < eps -> exists A, forall x, x <= A -> cdf x < eps.
Proof.
  intros Heps. destruct (lower_mass_limit eps Heps) as [N HN].
  exists (- INR N). intros x Hx.
  apply Rle_lt_trans with (cdf (- INR N)); [apply cdf_increasing; exact Hx |].
  specialize (HN N (Nat.le_refl N)). unfold Rdist, tail in HN.
  apply Rabs_def2 in HN.
  unfold cdf. pose proof (integral_chasles (- INR N) 0 (- INR N)) as Hc.
  rewrite integral_refl in Hc. lra.
Qed.

End Normal.

(* ================================================================= *)
(** ** [scipy.stats.norm] *)

Module Scipy.

(** [norm.cdf(x, loc, scale)]: the standard distribution function at the
    standardised argument. *)
Definition norm_cdf (x loc scale : R) : R := Normal.cdf ((x - loc) / scale).

(** [norm.pdf(x, loc, scale)]. *)
Definition norm_pdf (x loc scale : R) : R :=
  Normal.pdf ((x - loc) / scale) / scale.

End Scipy.

(* ================================================================= *)
(** ** numpy scalars and arrays *)

Module Numpy.

(** A [float64] value.  No exception is raised by numpy arithmetic: an
    undefined result is [nan], a division of a non-zero number by zero is an
    infinity. *)
Inductive float64 : Type :=
| Fin (x : R)
| NaN
| Inf (negative : bool).

Definition Rneg (x : R) : bool := if Rlt_dec x 0 then true else false.

Definition Rzero (x : R) : bool := if Req_dec_T x 0 then true else false.

Definition f_neg (a : float64) : float64 :=
  match a with
  | Fin x => Fin (- x)
  | NaN => NaN
  | Inf s => Inf (negb s)
  end.

Definition f_add (a b : float64) : float64 :=
  match a, b with
  | Fin x, Fin y => Fin (x + y)
  | NaN, _ | _, NaN => NaN
  | Inf s, Inf s' => if Bool.eqb s s' then Inf s else NaN
  | Inf s, Fin _ | Fin _, Inf s => Inf s
  end.

Definition f_sub (a b : float64) : float64 := f_add a (f_neg b).

Definition f_mul (a b : float64) : float64 :=
  match a, b with
  | Fin x, Fin y => Fin (x * y)
  | NaN, _ | _, NaN => NaN
  | Inf s, Inf s' => Inf (xorb s s')
  | Inf s, Fin y | Fin y, Inf s =>
      if Rzero y then NaN else Inf (xorb s (Rneg y))
  end.

Definition f_div (a b : float64) : float64 :=
  match a, b with
  | Fin x, Fin y =>
      if Rzero y then (if Rzero x then NaN else Inf (Rneg x))
      else Fin (x / y)
  | NaN, _ | _, NaN => NaN
  | Inf _, Inf _ => NaN
  | Inf s, Fin y => Inf (xorb s (Rneg y))
  | Fin _, Inf _ => Fin 0
  end.

(** [np.sqrt] of a Python number: [nan] below zero. *)
Definition np_sqrt (x : R) : float64 :=
  if Rlt_dec x 0 then NaN else Fin (sqrt x).

(** [np.exp]. *)
Definition np_exp (a : float64) : float64 :=
  match a with
  | Fin x => Fin (exp x)
  | NaN => NaN
  | Inf true => Fin 0
  | Inf false => Inf false
  end.

(** [np.maximum], which propagates [nan]. *)
Definition np_maximum (a b : float64) : float64 :=
  match a, b with
  | Fin x, Fin y => Fin (Rmax x y)
  | NaN, _ | _, NaN => NaN
  | Inf false, _ | _, Inf false => Inf false
  | Inf true, c | c, Inf true => c
  end.

(** An array of [float64]. *)
Definition ndarray : Type := list float64.

(** [np.sum]; the sum of the empty array is [0.0]. *)
Definition np_sum (a : ndarray) : float64 := fold_left f_add a (Fin 0).

(** A Python [int] converted for an operation with a [float64]. *)
Definition of_int (i : Z) : float64 := Fin (IZR i).

End Numpy.

(* ================================================================= *)
(** ** [Options/Option_Valuation.ipynb] *)

Module Valuation.

Import Py.

(** [BSM_call_value(S_0, K, T, r, vola)]: the analytical value of a European
    call option.  Operands are evaluated left to right, so the first failing
    operation decides the exception. *)
Definition BSM_call_value (S_0 K T r vola : R) : result R :=
  let S_0 := float S_0 in
  q <- truediv S_0 K ;;
  l <- math_log q ;;
  s <- math_sqrt T ;;
  d1 <- truediv (l + (r + 0.5 * vola ^ 2) * T) (vola * s) ;;
  s' <- math_sqrt T ;;
  let d2 := d1 - vola * s' in
  Ok (S_0 * Scipy.norm_cdf d1 0 1
      - K * math_exp (- r * T) * Scipy.norm_cdf d2 0 1).

Import Numpy.

(** The simulated index levels at maturity:
    [ST = S_0 * np.exp((r - 0.5 * vola ** 2) * T + np.sqrt(T) * vola * rand)]. *)
Definition ST (S_0 T r vola : R) (rand : ndarray) : ndarray :=
  map (fun z =>
         f_mul (Fin S_0)
           (np_exp (f_add (Fin ((r - 0.5 * vola ^ 2) * T))
                             (f_mul (f_mul (np_sqrt T) (Fin vola)) z))))
      rand.

(** The estimator of the cell:
    [pv = np.sum(np.maximum(ST - K, 0) * np.exp(-r * T)) / I]. *)
Definition pv (S_0 K T r vola : R) (I : Z) (rand : ndarray) : float64 :=
  f_div
    (np_sum
       (map (fun st =>
               f_mul (np_maximum (f_sub st (Fin K)) (Fin 0))
                     (np_exp (Fin (- r * T))))
            (ST S_0 T r vola rand)))
    (of_int I).

(** The global generator of [np.random]: its state, one standard normal
    draw, and the state that [np.random.seed] installs. *)
Section RandomSource.

Variable rng_state : Type.
Variable next_normal : rng_state -> R * rng_state.
Variable seed_state : Z -> rng_state.

Fixpoint draws (n : nat) (g : rng_state) : list R * rng_state :=
  match n with
  | O => ([], g)
  | S n' =>
      let (z, g1) := next_normal g in
      let (zs, g2) := draws n' g1 in
      (z :: zs, g2)
  end.

(** [np.random.standard_normal(size)]: a negative size is refused before
    anything is drawn. *)
Definition standard_normal (size : Z) (g : rng_state)
  : result ndarray * rng_state :=
  if (size <? 0)%Z then (Raise ValueError, g)
  else let (zs, g') := draws (Z.to_nat size) g in (Ok (map Fin zs), g').

(** [np.random.seed(seed)]: replaces the global state. *)
Definition random_seed (seed : Z) (g : rng_state) : rng_state :=
  seed_state seed.

(** The Monte Carlo cell, run on the global generator state [g]: the
    estimate (or the exception) and the state it leaves. *)
Definition MCS (S_0 K T r vola : R) (I : Z) (g : rng_state)
  : result float64 * rng_state :=
  match standard_normal I g with
  | (Ok rand, g') => (Ok (pv S_0 K T r vola I rand), g')
  | (Raise e, g') => (Raise e, g')
  end.

(** Two runs of the cell, each after seeding the generator with [seed]. *)
Definition MCS_twice_seeded (S_0 K T r vola : R) (I seed : Z) (g : rng_state)
  : result float64 * result float64 :=
  let g1 := random_seed seed g in
  let (pv1, g2) := MCS S_0 K T r vola I g1 in
  let g3 := random_seed seed g2 in
  let (pv2, _) := MCS S_0 K T r vola I g3 in
  (pv1, pv2).

(** Two runs of the cell in a row, without seeding in between. *)
Definition MCS_twice (S_0 K T r vola : R) (I : Z) (g : rng_state)
  : result float64 * result float64 :=
  let (pv1, g1) := MCS S_0 K T r vola I g in
  let (pv2, _) := MCS S_0 K T r vola I g1 in
  (pv1, pv2).

End RandomSource.

Arguments draws {rng_state} next_normal n g.
Arguments standard_normal {rng_state} next_normal size g.
Arguments random_seed {rng_state} seed_state seed g.
Arguments MCS {rng_state} next_normal S_0 K T r vola I g.
Arguments MCS_twice_seeded {rng_state} next_normal seed_state S_0 K T r vola I seed g.
Arguments MCS_twice {rng_state} next_normal S_0 K T r vola I g.

End Valuation.

(* ================================================================= *)
(** ** [Options/Financial_Derivative_Option_Class.ipynb] *)

Module OptionClass.

Import Py.

(** The attributes of an [Option] instance. *)
Record Option : Type := mkOption {
  S0 : R;
  K : R;
  T : R;
  r : R;
  vola : R
}.

(** [Option.__init__]. *)
Definition init (S0 K T r vola : R) : Option :=
  mkOption (float S0) K T r vola.

(** [Option.d1]. *)
Definition d1 (self : Option) : result R :=
  q <- truediv (S0 self) (K self) ;;
  l <- math_log q ;;
  s <- math_sqrt (T self) ;;
  truediv (l + (r self + 0.5 * vola self ^ 2) * T self) (vola self * s).

(** [Option.Call_Option]. *)
Definition Call_Option (self : Option) : result R :=
  d1 <- d1 self ;;
  s <- math_sqrt (T self) ;;
  let d2 := d1 - vola self * s in
  Ok (S0 self * Scipy.norm_cdf d1 0 1
      - K self * math_exp (- r self * T self) * Scipy.norm_cdf d2 0 1).

(** [class OptionVega(Option)]: no attribute is added, and [d1] and
    [Call_Option] are inherited. *)
Record OptionVega : Type := mkOptionVega {
  base :> Option
}.

Definition init_vega (S0 K T r vola : R) : OptionVega :=
  mkOptionVega (init S0 K T r vola).

(** [OptionVega.vega]. *)
Definition vega (self : OptionVega) : result R :=
  d1 <- d1 self ;;
  s <- math_sqrt (T self) ;;
  Ok (S0 self * Scipy.norm_pdf d1 0 1 * s).

End OptionClass.

(* ================================================================= *)
(** ** The quantities of the specification *)

Module Spec.

Definition d1Value (spot strike maturity rate volatility : R) : R :=
  (ln (spot / strike) + (rate + 0.5 * volatility ^ 2) * maturity)
  / (volatility * sqrt maturity).

Definition d2Value (spot strike maturity rate volatility : R) : R :=
  d1Value spot strike maturity rate volatility - volatility * sqrt maturity.

(** The closed-form call price. *)
Definition callValue (spot strike maturity rate volatility : R) : R :=
  spot * Normal.cdf (d1Value spot strike maturity rate volatility)
  - strike * exp (- rate * maturity)
    * Normal.cdf (d2Value spot strike maturity rate volatility).

Definition vegaValue (spot strike maturity rate volatility : R) : R :=
  spot * Normal.pdf (d1Value spot strike maturity rate volatility)
  * sqrt maturity.

(** The terminal price of one path, from its standard normal draw [z]. *)
Definition terminalPrice (spot maturity rate volatility z : R) : R :=
  spot * exp ((rate - 0.5 * volatility ^ 2) * maturity
              + sqrt maturity * volatility * z).

Definition payoff (strike s_T : R) : R := Rmax (s_T - strike) 0.

Definition total (l : list R) : R := fold_right Rplus 0 l.

Definition mean (l : list R) : R := total l / INR (length l).

(** The discounted sample mean of the payoffs. *)
Definition monteCarloValue (spot strike maturity rate volatility : R)
  (zs : list R) : R :=
  exp (- rate * maturity)
  * mean (map (fun z =>
                 payoff strike (terminalPrice spot maturity rate volatility z))
              zs).

End Spec.

(* ================================================================= *)
(** ** Evaluation lemmas for the Python operations *)

Section PyLemmas.

Import Py.

Lemma truediv_ok (x y : R) : y <> 0 -> truediv x y = Ok (x / y).
Proof.
  intros H. unfold truediv.
  destruct (Req_dec_T y 0);
    [contradiction | reflexivity].
Qed.

Lemma truediv_zero (x : R) : truediv x 0 = Raise ZeroDivisionError.
Proof.
  unfold truediv.
  destruct (Req_dec_T 0 0);
    [reflexivity | contradiction].
Qed.

Lemma math_log_ok (x : R) : 0 < x -> math_log x = Ok (ln x).
Proof.
  intros H. unfold math_log.
  destruct (Rlt_dec 0 x);
    [reflexivity | contradiction].
Qed.

Lemma math_log_domain (x : R) : x <= 0 -> math_log x = Raise ValueError.
Proof.
  intros H. unfold math_log.
  destruct (Rlt_dec 0 x);
    [lra | reflexivity].
Qed.

Lemma math_sqrt_ok (x : R) : 0 <= x -> math_sqrt x = Ok (sqrt x).
Proof.
  intros H. unfold math_sqrt.
  destruct (Rlt_dec x 0);
    [lra | reflexivity].
Qed.

Lemma math_sqrt_domain (x : R) : x < 0 -> math_sqrt x = Raise ValueError.
Proof.
  intros H. unfold math_sqrt.
  destruct (Rlt_dec x 0);
    [reflexivity | contradiction].
Qed.

Lemma norm_cdf_standard (x : R) : Scipy.norm_cdf x 0 1 = Normal.cdf x.
Proof. unfold Scipy.norm_cdf. f_equal. field. Qed.

Lemma norm_pdf_standard (x : R) : Scipy.norm_pdf x 0 1 = Normal.pdf x.
Proof.
  unfold Scipy.norm_pdf. replace ((x - 0) / 1) with x by field. field.
Qed.

End PyLemmas.

(** The class-based pricer and the function run the same computation. *)
Lemma Call_Option_unfold (S0 K T r vola : R) :
  OptionClass.Call_Option (OptionClass.init S0 K T r vola)
  = Valuation.BSM_call_value S0 K T r vola.
Proof.
  unfold OptionClass.Call_Option, OptionClass.d1, OptionClass.init,
    Valuation.BSM_call_value. simpl.
  destruct (Py.truediv (Py.float S0) K) as [q | e]; [simpl | reflexivity].
  destruct (Py.math_log q) as [l | e]; [simpl | reflexivity].
  destruct (Py.math_sqrt T) as [s | e]; [simpl | reflexivity].
  destruct (Py.truediv _ _) as [d | e]; reflexivity.
Qed.

(** The closed-form pricer on a parameter set for which no operation fails. *)
Lemma BSM_call_value_ok (S_0 K T r vola : R) :
  0 < S_0 / K -> 0 < T -> vola <> 0 ->
  Valuation.BSM_call_value S_0 K T r vola
  = Py.Ok (Spec.callValue S_0 K T r vola).
Proof.
  intros Hq HT Hv.
  assert (HK : K <> 0).
  { intros ->. unfold Rdiv in Hq. rewrite Rinv_0, Rmult_0_r in Hq. lra. }
  assert (Hs : 0 < sqrt T) by (apply sqrt_lt_R0; exact HT).
  unfold Valuation.BSM_call_value, Py.float.
  rewrite (truediv_ok _ _ HK). simpl.
  rewrite (math_log_ok _ Hq). simpl.
  rewrite (math_sqrt_ok T) by lra. simpl.
  rewrite truediv_ok by (apply Rmult_integral_contrapositive_currified; lra).
  simpl. rewrite !norm_cdf_standard. reflexivity.
Qed.

Lemma valid_quotient (S_0 K : R) : 0 < S_0 -> 0 < K -> 0 < S_0 / K.
Proof. intros. apply Rdiv_lt_0_compat; assumption. Qed.

(* ================================================================= *)
(** ** Analysis of the closed-form price *)

Module Analysis.

(** With [a = volatility*sqrt(maturity)] and [d = d1], the price is
    [strike*exp(-rate*maturity) * spread a d] (lemma [callValue_spread]),
    where [growth a d] is the forward moneyness. *)
Definition growth (a d : R) : R := exp (a * d - a ^ 2 / 2).

Definition spread (a d : R) : R :=
  growth a d * Normal.cdf d - Normal.cdf (d - a).

Lemma growth_pos (a d : R) : 0 < growth a d.
Proof. apply exp_pos. Qed.

Lemma pdf_shift (a d : R) : Normal.pdf (d - a) = Normal.pdf d * growth a d.
Proof.
  unfold Normal.pdf, growth.
  replace (- (d - a) ^ 2 / 2) with (- d ^ 2 / 2 + (a * d - a ^ 2 / 2)) by field.
  rewrite exp_plus. unfold Rdiv. ring.
Qed.

Lemma growth_derivable (a d : R) :
  derivable_pt_lim (growth a) d (growth a d * a).
Proof.
  unfold growth.
  apply (derivable_pt_lim_comp (fun d => a * d - a ^ 2 / 2) exp).
  - apply (affine_derivable a (- (a ^ 2 / 2)) d).
  - apply derivable_pt_lim_exp.
Qed.

Lemma shifted_cdf_derivable (a d : R) :
  derivable_pt_lim (fun d => Normal.cdf (d - a)) d (Normal.pdf (d - a)).
Proof. apply shifted_derivable, Normal.cdf_derivable. Qed.

Lemma spread_derivable (a d : R) :
  derivable_pt_lim (spread a) d (a * growth a d * Normal.cdf d).
Proof.
  apply derivable_pt_lim_value
    with (l := (growth a d * a * Normal.cdf d + growth a d * Normal.pdf d)
               - Normal.pdf (d - a));
    [| rewrite pdf_shift; ring].
  unfold spread.
  apply (derivable_pt_lim_minus (fun d => growth a d * Normal.cdf d)
                                (fun d => Normal.cdf (d - a))).
  - apply (derivable_pt_lim_mult (growth a) Normal.cdf);
      [apply growth_derivable | apply Normal.cdf_derivable].
  - apply shifted_cdf_derivable.
Qed.

Lemma spread_increasing (a x y : R) :
  0 <= a -> x <= y -> spread a x <= spread a y.
Proof.
  intros Ha Hxy.
  apply (increasing_of_derivative (spread a)
           (fun d => a * growth a d * Normal.cdf d) x y); try lra.
  - intros c _. apply spread_derivable.
  - intros c _. apply Rmult_le_pos; [| apply Normal.cdf_nonneg].
    apply Rmult_le_pos; [exact Ha | left; apply growth_pos].
Qed.

Lemma spread_nonneg (a d : R) : 0 <= a -> 0 <= spread a d.
Proof.
  intros Ha. destruct (Rle_lt_dec 0 (spread a d)) as [H | H]; [exact H |].
  exfalso.
  destruct (Normal.cdf_vanishes (- spread a d)) as [A HA]; [lra |].
  pose (d0 := Rmin d (A + a)).
  assert (Hd0 : d0 <= d) by apply Rmin_l.
  assert (Hd0' : d0 - a <= A) by (generalize (Rmin_r d (A + a)); unfold d0; lra).
  pose proof (spread_increasing a d0 d Ha Hd0) as Hinc.
  specialize (HA (d0 - a) Hd0').
  assert (0 <= growth a d0 * Normal.cdf d0)
    by (apply Rmult_le_pos; [left; apply growth_pos | apply Normal.cdf_nonneg]).
  unfold spread in Hinc at 1. lra.
Qed.

Lemma d1_scaled (S K T r v : R) :
  0 < T -> v <> 0 ->
  v * sqrt T * Spec.d1Value S K T r v = ln (S / K) + (r + 0.5 * v ^ 2) * T.
Proof.
  intros HT Hv. unfold Spec.d1Value.
  assert (0 < sqrt T) by (apply sqrt_lt_R0; exact HT).
  field. split; lra.
Qed.

Lemma callValue_spread (S K T r v : R) :
  0 < S / K -> 0 < T -> v <> 0 ->
  Spec.callValue S K T r v
  = K * exp (- r * T) * spread (v * sqrt T) (Spec.d1Value S K T r v).
Proof.
  intros Hq HT Hv.
  assert (HK : K <> 0).
  { intros ->. unfold Rdiv in Hq. rewrite Rinv_0, Rmult_0_r in Hq. lra. }
  unfold Spec.callValue, Spec.d2Value, spread, growth.
  rewrite d1_scaled by assumption.
  replace ((v * sqrt T) ^ 2) with (v ^ 2 * sqrt T ^ 2) by ring.
  rewrite pow2_sqrt by lra.
  replace (ln (S / K) + (r + 0.5 * v ^ 2) * T - v ^ 2 * T / 2)
    with (ln (S / K) + r * T) by lra.
  rewrite exp_plus, exp_ln by exact Hq.
  replace (- r * T) with (- (r * T)) by ring.
  rewrite exp_Ropp.
  assert (exp (r * T) <> 0) by (generalize (exp_pos (r * T)); lra).
  field. split; assumption.
Qed.

Lemma d1_increasing (s1 s2 K T r v : R) :
  0 < s1 -> s1 <= s2 -> 0 < K -> 0 < T -> 0 < v ->
  Spec.d1Value s1 K T r v <= Spec.d1Value s2 K T r v.
Proof.
  intros Hs1 Hs HK HT Hv. unfold Spec.d1Value.
  assert (0 < sqrt T) by (apply sqrt_lt_R0; exact HT).
  apply Rmult_le_compat_r.
  - left. apply Rinv_0_lt_compat, Rmult_lt_0_compat; assumption.
  - assert (ln (s1 / K) <= ln (s2 / K)); [| lra].
    destruct Hs as [Hs | ->]; [| lra].
    left. apply ln_increasing.
    + apply Rdiv_lt_0_compat; assumption.
    + apply Rmult_lt_compat_r; [apply Rinv_0_lt_compat; exact HK | exact Hs].
Qed.

Lemma callValue_nonneg (S K T r v : R) :
  0 < S -> 0 < K -> 0 < T -> 0 < v -> 0 <= Spec.callValue S K T r v.
Proof.
  intros HS HK HT Hv.
  rewrite callValue_spread by (try apply valid_quotient; lra).
  assert (0 < sqrt T) by (apply sqrt_lt_R0; exact HT).
  apply Rmult_le_pos.
  - apply Rmult_le_pos; [lra | left; apply exp_pos].
  - apply spread_nonneg. apply Rmult_le_pos; lra.
Qed.

Lemma callValue_increasing (s1 s2 K T r v : R) :
  0 < s1 -> s1 <= s2 -> 0 < K -> 0 < T -> 0 < v ->
  Spec.callValue s1 K T r v <= Spec.callValue s2 K T r v.
Proof.
  intros Hs1 Hs HK HT Hv.
  rewrite !callValue_spread by (try apply valid_quotient; lra).
  assert (0 < sqrt T) by (apply sqrt_lt_R0; exact HT).
  apply Rmult_le_compat_l.
  - apply Rmult_le_pos; [lra | left; apply exp_pos].
  - apply spread_increasing.
    + apply Rmult_le_pos; lra.
    + apply d1_increasing; assumption.
Qed.

End Analysis.

(* ================================================================= *)
(** ** Wallis integrals *)

Module Wallis.

(** [J n] is the primitive of [cos ^ n] that vanishes at 0, given by the
    reduction formula. *)
Fixpoint J (n : nat) (x : R) : R :=
  match n with
  | O => x
  | S p =>
      match p with
      | O => sin x
      | S m => (INR (S m) * J m x + sin x * cos x ^ S m) / INR (S (S m))
      end
  end.

Lemma cos_pow_derivable (n : nat) (x : R) :
  derivable_pt_lim (fun y => cos y ^ S n) x (INR (S n) * cos x ^ n * - sin x).
Proof.
  apply (derivable_pt_lim_comp cos (fun y => y ^ S n)).
  - apply derivable_pt_lim_cos.
  - apply (derivable_pt_lim_pow (cos x) (S n)).
Qed.

Lemma J_step_derivable (m : nat) (x : R) :
  derivable_pt_lim (J m) x (cos x ^ m) ->
  derivable_pt_lim (J (S (S m))) x (cos x ^ S (S m)).
Proof.
  intros IH.
  assert (Hn : INR (S (S m)) <> 0) by (apply not_0_INR; discriminate).
  change (J (S (S m)))
    with (fun y => (INR (S m) * J m y + sin y * cos y ^ S m) / INR (S (S m))).
  apply derivable_pt_lim_value
    with (l := (INR (S m) * cos x ^ m
                + (cos x * cos x ^ S m
                   + sin x * (INR (S m) * cos x ^ m * - sin x)))
               * / INR (S (S m)) + (INR (S m) * J m x + sin x * cos x ^ S m) * 0).
  - apply (derivable_pt_lim_mult
             (fun y => INR (S m) * J m y + sin y * cos y ^ S m)
             (fun _ => / INR (S (S m)))).
    + apply (derivable_pt_lim_plus (fun y => INR (S m) * J m y)
                                   (fun y => sin y * cos y ^ S m)).
      * apply (derivable_pt_lim_scal (J m) (INR (S m))). exact IH.
      * apply (derivable_pt_lim_mult sin (fun y => cos y ^ S m)).
        -- apply derivable_pt_lim_sin.
        -- apply cos_pow_derivable.
    + apply derivable_pt_lim_const.
  - assert (Hs : sin x * sin x = 1 - cos x * cos x).
    { generalize (sin2_cos2 x). unfold Rsqr. lra. }
    rewrite (S_INR (S m)) in *. simpl pow.
    apply Rmult_eq_reg_r with (INR (S m) + 1); [| exact Hn].
    transitivity (INR (S m) * cos x ^ m * (1 - sin x * sin x)
                  + cos x * (cos x * cos x ^ m)); [field; exact Hn |].
    rewrite Hs. ring.
Qed.

Lemma J_derivable (n : nat) (x : R) : derivable_pt_lim (J n) x (cos x ^ n).
Proof.
  assert (H : derivable_pt_lim (J n) x (cos x ^ n)
              /\ derivable_pt_lim (J (S n)) x (cos x ^ S n)).
  { induction n as [| n [IH0 IH1]].
    - split.
      + simpl. apply derivable_pt_lim_id.
      + apply derivable_pt_lim_value with (l := cos x); [| simpl; ring].
        apply derivable_pt_lim_sin.
    - split; [exact IH1 | apply J_step_derivable; exact IH0]. }
  apply H.
Qed.

Lemma J_0 (n : nat) : J n 0 = 0.
Proof.
  assert (H : J n 0 = 0 /\ J (S n) 0 = 0).
  { induction n as [| n [IH0 IH1]].
    - split; [reflexivity | apply sin_0].
    - split; [exact IH1 |].
      change (J (S (S n)) 0)
        with ((INR (S n) * J n 0 + sin 0 * cos 0 ^ S n) / INR (S (S n))).
      rewrite IH0, sin_0. unfold Rdiv. ring. }
  apply H.
Qed.

(** The Wallis integrals: [W n] is the integral of [cos ^ n] over
    [[0, PI / 2]]. *)
Definition W (n : nat) : R := J n (PI / 2).

Lemma W_0 : W 0 = PI / 2.
Proof. reflexivity. Qed.

Lemma W_1 : W 1 = 1.
Proof. unfold W. simpl. apply sin_PI2. Qed.

(** The reduction formula, and what follows from it. *)
Lemma W_step (n : nat) : INR (S (S n)) * W (S (S n)) = INR (S n) * W n.
Proof.
  unfold W.
  change (J (S (S n)) (PI / 2))
    with ((INR (S n) * J n (PI / 2) + sin (PI / 2) * cos (PI / 2) ^ S n)
          / INR (S (S n))).
  rewrite cos_PI2. rewrite pow_ne_zero by discriminate.
  field. apply not_0_INR. discriminate.
Qed.

Lemma W_pos (n : nat) : 0 < W n.
Proof.
  assert (H : 0 < W n /\ 0 < W (S n)).
  { induction n as [| n [IH0 IH1]].
    - rewrite W_0, W_1. generalize PI_RGT_0. lra.
    - split; [exact IH1 |].
      assert (Hn : 0 < INR (S (S n))) by (apply lt_0_INR; lia).
      assert (Hm : 0 < INR (S n)) by (apply lt_0_INR; lia).
      pose proof (W_step n) as Hs.
      assert (0 < INR (S n) * W n) by (apply Rmult_lt_0_compat; assumption).
      rewrite <- Hs in H.
      apply Rmult_lt_reg_l with (INR (S (S n))); [exact Hn | lra]. }
  apply H.
Qed.

Lemma W_product (n : nat) : INR (S n) * W (S n) * W n = PI / 2.
Proof.
  induction n as [| n IH].
  - rewrite W_0, W_1. simpl. ring.
  - rewrite W_step. rewrite <- IH. ring.
Qed.

Lemma cos_unit_interval (x : R) : 0 <= x <= PI / 2 -> 0 <= cos x <= 1.
Proof.
  intros Hx. split.
  - apply cos_ge_0; lra.
  - generalize (COS_bound x). lra.
Qed.

Lemma W_decreasing (n : nat) : W (S n) <= W n.
Proof.
  pose (D := fun x => J n x - J (S n) x).
  assert (H : D 0 <= D (PI / 2)).
  { apply (increasing_of_derivative D
             (fun x => cos x ^ n - cos x ^ S n) 0 (PI / 2)).
    - intros c _. unfold D.
      apply (derivable_pt_lim_minus (J n) (J (S n))); apply J_derivable.
    - intros c Hc. destruct (cos_unit_interval c Hc) as [H0 H1].
      simpl. assert (0 <= cos c ^ n) by (apply pow_le; exact H0).
      nra.
    - lra.
    - generalize PI_RGT_0. lra.
    - lra. }
  unfold D in H. rewrite !J_0 in H. unfold W. lra.
Qed.

Lemma W_square_upper (n : nat) : INR (S n) * W (S n) ^ 2 <= PI / 2.
Proof.
  rewrite <- (W_product n).
  pose proof (W_decreasing n). pose proof (W_pos (S n)).
  assert (0 < INR (S n)) by (apply lt_0_INR; lia).
  replace (INR (S n) * W (S n) ^ 2) with (INR (S n) * W (S n) * W (S n)) by ring.
  apply Rmult_le_compat_l; [| assumption].
  apply Rmult_le_pos; lra.
Qed.

Lemma W_square_lower (n : nat) : PI / 2 <= INR (S n) * W n ^ 2.
Proof.
  rewrite <- (W_product n).
  pose proof (W_decreasing n). pose proof (W_pos n).
  assert (0 < INR (S n)) by (apply lt_0_INR; lia).
  replace (INR (S n) * W n ^ 2) with (INR (S n) * W n * W n) by ring.
  replace (INR (S n) * W (S n) * W n) with (INR (S n) * W n * W (S n)) by ring.
  apply Rmult_le_compat_l; [| assumption].
  apply Rmult_le_pos; lra.
Qed.

End Wallis.

(* ================================================================= *)
(** ** The Gaussian integral *)

Module GaussianIntegral.

Import Wallis.

(** The density is even, so the two half lines carry the same mass. *)
Lemma pdf_even (x : R) : Normal.pdf (- x) = Normal.pdf x.
Proof. unfold Normal.pdf. replace ((- x) ^ 2) with (x ^ 2) by ring. reflexivity. Qed.

Lemma integral_reflect (x : R) : Normal.integral 0 (- x) = - Normal.integral 0 x.
Proof.
  pose (S := fun x => Normal.integral 0 x + Normal.integral 0 (- x)).
  assert (H : S x = S 0).
  { apply constant_of_zero_derivative. intros t. unfold S.
    apply derivable_pt_lim_value
      with (l := Normal.pdf t + Normal.pdf (- t) * -1);
      [| rewrite pdf_even; ring].
    apply (derivable_pt_lim_plus (Normal.integral 0)
                                 (fun t => Normal.integral 0 (- t))).
    - apply Normal.integral_derivable.
    - apply (derivable_pt_lim_comp (fun t => - t) (Normal.integral 0));
        [apply neg_derivable | apply Normal.integral_derivable]. }
  unfold S in H. rewrite Ropp_0, Normal.integral_refl in H. lra.
Qed.

Lemma integral_flip (a b : R) : Normal.integral a b = - Normal.integral b a.
Proof.
  pose proof (Normal.integral_chasles a b a) as H.
  rewrite Normal.integral_refl in H. lra.
Qed.

Lemma tail_half_line (n : nat) : Normal.tail n = Normal.integral 0 (INR n).
Proof.
  unfold Normal.tail. rewrite integral_flip, integral_reflect. ring.
Qed.

(** The mass of [[0, Y]] never exceeds the mass of a half line. *)
Lemma half_mass_le (Y : R) : Normal.integral 0 Y <= Normal.lower_mass.
Proof.
  destruct (INR_unbounded Y) as [n Hn].
  apply Rle_trans with (Normal.tail n).
  - rewrite tail_half_line.
    pose proof (Normal.integral_chasles 0 Y (INR n)) as Hc.
    pose proof (Normal.integral_nonneg Y (INR n)). lra.
  - apply growing_ineq; [apply Normal.tail_growing | apply Normal.lower_mass_limit].
Qed.

(** On [[0, PI / 2]] the cosine lies below the Gaussian. *)
Lemma sin_ge_x_cos (x : R) : 0 <= x <= PI / 2 -> x * cos x <= sin x.
Proof.
  intros Hx.
  pose (h := fun x => sin x - x * cos x).
  assert (H : h 0 <= h x).
  { apply (increasing_of_derivative h (fun x => x * sin x) 0 (PI / 2));
      try lra.
    - intros c _. unfold h.
      apply derivable_pt_lim_value
        with (l := cos c - (1 * cos c + c * - sin c)); [| ring].
      apply (derivable_pt_lim_minus sin (fun x => x * cos x)).
      + apply derivable_pt_lim_sin.
      + apply (derivable_pt_lim_mult id cos);
          [apply derivable_pt_lim_id | apply derivable_pt_lim_cos].
    - intros c Hc. apply Rmult_le_pos; [lra |].
      apply sin_ge_0; generalize PI_RGT_0; lra. }
  unfold h in H. rewrite sin_0 in H. lra.
Qed.

Lemma cos_le_gauss (x : R) : 0 <= x <= PI / 2 -> cos x <= exp (- x ^ 2 / 2).
Proof.
  intros Hx.
  pose (g := fun x => - (exp (x ^ 2 / 2) * cos x)).
  assert (H : g 0 <= g x).
  { apply (increasing_of_derivative g
             (fun x => exp (x ^ 2 / 2) * (sin x - x * cos x)) 0 (PI / 2));
      try lra.
    - intros c _. unfold g.
      apply derivable_pt_lim_value
        with (l := - (exp (c ^ 2 / 2) * c * cos c + exp (c ^ 2 / 2) * - sin c));
        [| ring].
      apply (derivable_pt_lim_opp (fun x => exp (x ^ 2 / 2) * cos x)).
      apply (derivable_pt_lim_mult (fun x => exp (x ^ 2 / 2)) cos).
      + apply (derivable_pt_lim_comp (fun x => x ^ 2 / 2) exp).
        * apply derivable_pt_lim_value with (l := INR 2 * c ^ 1 * / 2 + c ^ 2 * 0);
            [| simpl; field].
          apply (derivable_pt_lim_mult (fun x => x ^ 2) (fun _ => / 2)).
          -- apply (derivable_pt_lim_pow c 2).
          -- apply derivable_pt_lim_const.
        * apply derivable_pt_lim_exp.
      + apply derivable_pt_lim_cos.
    - intros c Hc. apply Rmult_le_pos; [left; apply exp_pos |].
      generalize (sin_ge_x_cos c Hc). lra. }
  unfold g in H.
  replace (0 ^ 2 / 2) with 0 in H by (simpl; field).
  rewrite exp_0, cos_0 in H.
  replace (- x ^ 2 / 2) with (- (x ^ 2 / 2)) by field.
  rewrite exp_Ropp.
  assert (He : 0 < exp (x ^ 2 / 2)) by apply exp_pos.
  apply Rmult_le_reg_l with (exp (x ^ 2 / 2)); [exact He |].
  rewrite Rinv_r by lra. lra.
Qed.

Lemma pdf_gauss (Y : R) : sqrt (2 * PI) * Normal.pdf Y = exp (- Y ^ 2 / 2).
Proof.
  unfold Normal.pdf. field. generalize Normal.sqrt_2PI_pos. lra.
Qed.

Lemma scaled_integral_derivable (Y : R) :
  derivable_pt_lim (fun y => sqrt (2 * PI) * Normal.integral 0 y) Y
    (exp (- Y ^ 2 / 2)).
Proof.
  rewrite <- pdf_gauss.
  apply (derivable_pt_lim_scal (Normal.integral 0) (sqrt (2 * PI))).
  apply Normal.integral_derivable.
Qed.

(** Comparison from below: [cos ^ (n + 1)], rescaled by [sqrt (n + 1)],
    lies below the Gaussian on [[0, sqrt (n + 1) * PI / 2]]. *)
Lemma gauss_lower (n : nat) :
  sqrt (INR (S n)) * W (S n)
  <= sqrt (2 * PI) * Normal.integral 0 (sqrt (INR (S n)) * (PI / 2)).
Proof.
  set (s := sqrt (INR (S n))).
  assert (Hn : 0 < INR (S n)) by (apply lt_0_INR; lia).
  assert (Hs : 0 < s) by (apply sqrt_lt_R0; exact Hn).
  assert (Hss : s * s = INR (S n)) by (apply sqrt_sqrt; lra).
  pose (D := fun Y => sqrt (2 * PI) * Normal.integral 0 Y
                      - s * J (S n) (/ s * Y)).
  assert (HPI := PI_RGT_0).
  assert (H : D 0 <= D (s * (PI / 2))).
  { apply (increasing_of_derivative D
             (fun Y => exp (- Y ^ 2 / 2) - cos (/ s * Y) ^ S n)
             0 (s * (PI / 2))).
    - intros c _. unfold D.
      apply (derivable_pt_lim_minus
               (fun Y => sqrt (2 * PI) * Normal.integral 0 Y)
               (fun Y => s * J (S n) (/ s * Y))).
      + apply scaled_integral_derivable.
      + apply derivable_pt_lim_value
          with (l := s * (cos (/ s * c) ^ S n * / s)); [| field; lra].
        apply (derivable_pt_lim_scal (fun Y => J (S n) (/ s * Y)) s).
        apply scaled_derivable, J_derivable.
    - intros c Hc.
      assert (Hz : 0 <= / s * c <= PI / 2).
      { assert (0 < / s) by (apply Rinv_0_lt_compat; exact Hs). split.
        - apply Rmult_le_pos; lra.
        - apply Rmult_le_reg_l with s; [exact Hs |].
          rewrite <- Rmult_assoc, Rinv_r by lra. lra. }
      assert (Hpow : cos (/ s * c) ^ S n <= exp (- (/ s * c) ^ 2 / 2) ^ S n).
      { apply pow_incr. split.
        - apply cos_ge_0; lra.
        - apply cos_le_gauss. exact Hz. }
      rewrite exp_pow in Hpow.
      replace (INR (S n) * (- (/ s * c) ^ 2 / 2)) with (- c ^ 2 / 2) in Hpow.
      + lra.
      + rewrite <- Hss. field. lra.
    - lra.
    - apply Rmult_le_pos; lra.
    - lra. }
  unfold D in H. rewrite Rmult_0_r, J_0, Normal.integral_refl in H.
  replace (/ s * (s * (PI / 2))) with (PI / 2) in H by (field; lra).
  fold (W (S n)) in H. lra.
Qed.

Lemma cos_atan_sq (z : R) : cos (atan z) ^ 2 = / (1 + z ^ 2).
Proof.
  rewrite cos_atan. unfold Rsqr.
  assert (Hp : 0 < 1 + z * z) by nra.
  assert (Hq : 0 < sqrt (1 + z * z)) by (apply sqrt_lt_R0; exact Hp).
  replace ((1 / sqrt (1 + z * z)) ^ 2)
    with (/ (sqrt (1 + z * z) * sqrt (1 + z * z))) by (field; lra).
  rewrite sqrt_sqrt by lra. f_equal. ring.
Qed.

Lemma J_even_increasing (m : nat) (x y : R) :
  x <= y -> J (2 * m) x <= J (2 * m) y.
Proof.
  intros Hxy.
  apply (increasing_of_derivative (J (2 * m))
           (fun x => cos x ^ (2 * m)) x y); try lra.
  - intros c _. apply J_derivable.
  - intros c _. rewrite pow_mult. apply pow_le. apply pow2_ge_0.
Qed.

(** Comparison from above: the Gaussian lies below
    [(1 + y^2 / (2 (m + 1))) ^ - (m + 1)], whose primitive is a Wallis
    primitive of the arc tangent. *)
Lemma gauss_upper (m : nat) (Y : R) :
  0 <= Y ->
  sqrt (2 * PI) * Normal.integral 0 Y <= sqrt (2 * INR (S m)) * W (2 * m).
Proof.
  intros HY.
  set (c := sqrt (2 * INR (S m))).
  assert (Hn : 0 < INR (S m)) by (apply lt_0_INR; lia).
  assert (Hc : 0 < c) by (apply sqrt_lt_R0; lra).
  assert (Hcc : c * c = 2 * INR (S m)) by (apply sqrt_sqrt; lra).
  pose (D := fun Y => c * J (2 * m) (atan (/ c * Y))
                      - sqrt (2 * PI) * Normal.integral 0 Y).
  assert (H : D 0 <= D Y).
  { apply (increasing_of_derivative D
             (fun Y => (/ (1 + (/ c * Y) ^ 2)) ^ S m - exp (- Y ^ 2 / 2))
             0 Y); try lra.
    - intros t _. unfold D.
      apply (derivable_pt_lim_minus
               (fun Y => c * J (2 * m) (atan (/ c * Y)))
               (fun Y => sqrt (2 * PI) * Normal.integral 0 Y));
        [| apply scaled_integral_derivable].
      apply derivable_pt_lim_value
        with (l := c * (cos (atan (/ c * t)) ^ (2 * m)
                        * (/ (1 + (/ c * t) ^ 2) * / c))).
      + apply (derivable_pt_lim_scal
                 (fun Y => J (2 * m) (atan (/ c * Y))) c).
        apply (derivable_pt_lim_comp (fun Y => atan (/ c * Y)) (J (2 * m))).
        * apply (scaled_derivable atan (/ c) t), derivable_pt_lim_atan.
        * apply J_derivable.
      + rewrite pow_mult, cos_atan_sq. simpl pow. field.
        split; [lra |].
        assert (0 <= t * t) by apply Rle_0_sqr.
        assert (0 < c * c) by (apply Rmult_lt_0_compat; exact Hc). lra.
    - intros t Ht.
      set (z := / c * t).
      assert (Hexp : exp (- t ^ 2 / 2) = exp (- z ^ 2) ^ S m).
      { rewrite exp_pow. f_equal. unfold z.
        replace (INR (S m)) with (c * c / 2) by lra. field. lra. }
      rewrite Hexp.
      assert (Hle : exp (- z ^ 2) ^ S m <= (/ (1 + z ^ 2)) ^ S m).
      { apply pow_incr. split; [left; apply exp_pos |].
        rewrite exp_Ropp. apply Rinv_le_contravar.
        - assert (0 <= z ^ 2) by apply pow2_ge_0. lra.
        - apply exp_ineq1_le. }
      lra. }
  unfold D in H.
  rewrite Rmult_0_r, atan_0, J_0, Normal.integral_refl in H.
  assert (Hup : J (2 * m) (atan (/ c * Y)) <= W (2 * m)).
  { apply J_even_increasing. left. apply atan_bound. }
  assert (c * J (2 * m) (atan (/ c * Y)) <= c * W (2 * m))
    by (apply Rmult_le_compat_l; lra).
  lra.
Qed.

Lemma sqrt_2PI_sq : sqrt (2 * PI) ^ 2 = 2 * PI.
Proof. apply pow2_sqrt. generalize PI_RGT_0. lra. Qed.

(** Both comparisons squeeze the mass of the half line to 1/2. *)
Lemma half_line_sq_upper (Y : R) (k : nat) :
  0 <= Y -> 4 * Normal.integral 0 Y ^ 2 <= 1 + / INR (S k).
Proof.
  intros HY.
  assert (HPI := PI_RGT_0).
  assert (Hk : 0 < INR (S k)) by (apply lt_0_INR; lia).
  pose proof (gauss_upper (S k) Y HY) as Hu.
  assert (HE : 0 <= Normal.integral 0 Y) by (apply Normal.integral_nonneg; exact HY).
  assert (Hsq : (sqrt (2 * PI) * Normal.integral 0 Y) ^ 2
                <= (sqrt (2 * INR (S (S k))) * W (2 * S k)) ^ 2).
  { apply sq_le; [| exact Hu].
    apply Rmult_le_pos; [left; apply Normal.sqrt_2PI_pos | exact HE]. }
  rewrite !Rpow_mult_distr, sqrt_2PI_sq in Hsq.
  rewrite pow2_sqrt in Hsq
    by (assert (0 < INR (S (S k))) by (apply lt_0_INR; lia); lra).
  replace (2 * S k)%nat with (S (S (2 * k))) in Hsq by lia.
  pose proof (W_square_upper (S (2 * k))) as Hw.
  assert (H2 : INR (S (S (2 * k))) = 2 * INR (S k)).
  { rewrite !S_INR, mult_INR. simpl. ring. }
  rewrite H2 in Hw. rewrite (S_INR (S k)) in Hsq.
  set (w := W (S (S (2 * k))) ^ 2) in *.
  set (e := Normal.integral 0 Y ^ 2) in *.
  assert (Hw' : w <= PI / (4 * INR (S k))).
  { apply Rmult_le_reg_l with (2 * INR (S k)); [lra |].
    replace (2 * INR (S k) * (PI / (4 * INR (S k)))) with (PI / 2) by (field; lra).
    exact Hw. }
  assert (He : 2 * PI * e <= 2 * (INR (S k) + 1) * (PI / (4 * INR (S k)))).
  { eapply Rle_trans; [exact Hsq |].
    apply Rmult_le_compat_l; [lra | exact Hw']. }
  replace (2 * (INR (S k) + 1) * (PI / (4 * INR (S k))))
    with (2 * PI * ((1 + / INR (S k)) / 4)) in He by (field; lra).
  apply Rmult_le_reg_l in He; lra.
Qed.

Lemma half_line_upper (Y : R) : 0 <= Y -> Normal.integral 0 Y <= 1 / 2.
Proof.
  intros HY.
  assert (HE : 0 <= Normal.integral 0 Y) by (apply Normal.integral_nonneg; exact HY).
  assert (H : 4 * Normal.integral 0 Y ^ 2 <= 1).
  { apply le_of_forall_inv. intros k. apply half_line_sq_upper. exact HY. }
  destruct (Rle_lt_dec (Normal.integral 0 Y) (1 / 2)) as [Hle | Hlt]; [exact Hle |].
  exfalso. simpl in H. nra.
Qed.

Lemma lower_mass_upper : Normal.lower_mass <= 1 / 2.
Proof.
  destruct (Rle_lt_dec Normal.lower_mass (1 / 2)) as [Hle | Hlt]; [exact Hle |].
  exfalso.
  destruct (Normal.lower_mass_limit (Normal.lower_mass - 1 / 2)) as [N HN]; [lra |].
  specialize (HN N (Nat.le_refl N)). unfold Rdist in HN.
  apply Rabs_def2 in HN. rewrite tail_half_line in HN.
  pose proof (half_line_upper (INR N) (pos_INR N)). lra.
Qed.

Lemma lower_mass_sq_lower (n : nat) :
  1 <= 4 * Normal.lower_mass ^ 2 + / INR (S n).
Proof.
  assert (HPI := PI_RGT_0).
  assert (Hn : 0 < INR (S n)) by (apply lt_0_INR; lia).
  assert (Hn2 : INR (S (S n)) = INR (S n) + 1) by apply S_INR.
  pose proof (gauss_lower n) as Hl.
  pose proof (half_mass_le (sqrt (INR (S n)) * (PI / 2))) as Hm.
  assert (Hs : 0 < sqrt (INR (S n))) by (apply sqrt_lt_R0; exact Hn).
  assert (Hle : sqrt (INR (S n)) * W (S n) <= sqrt (2 * PI) * Normal.lower_mass).
  { eapply Rle_trans; [exact Hl |].
    apply Rmult_le_compat_l; [left; apply Normal.sqrt_2PI_pos | exact Hm]. }
  assert (Hsq : (sqrt (INR (S n)) * W (S n)) ^ 2
                <= (sqrt (2 * PI) * Normal.lower_mass) ^ 2).
  { apply sq_le; [| exact Hle].
    apply Rmult_le_pos; [lra | left; apply W_pos]. }
  rewrite !Rpow_mult_distr, sqrt_2PI_sq, pow2_sqrt in Hsq by lra.
  pose proof (W_square_lower (S n)) as Hw. rewrite Hn2 in Hw.
  set (w := W (S n) ^ 2) in *.
  set (M := Normal.lower_mass ^ 2) in *.
  assert (Hw' : PI / (2 * (INR (S n) + 1)) <= w).
  { apply Rmult_le_reg_l with (INR (S n) + 1); [lra |].
    replace ((INR (S n) + 1) * (PI / (2 * (INR (S n) + 1))))
      with (PI / 2) by (field; lra).
    exact Hw. }
  assert (He : INR (S n) * (PI / (2 * (INR (S n) + 1))) <= 2 * PI * M).
  { eapply Rle_trans; [| exact Hsq].
    apply Rmult_le_compat_l; [lra | exact Hw']. }
  replace (INR (S n) * (PI / (2 * (INR (S n) + 1))))
    with (2 * PI * ((1 - / (INR (S n) + 1)) / 4)) in He by (field; lra).
  apply Rmult_le_reg_l in He; [| lra].
  assert (/ (INR (S n) + 1) <= / INR (S n)).
  { apply Rinv_le_contravar; lra. }
  lra.
Qed.

Lemma lower_mass_nonneg : 0 <= Normal.lower_mass.
Proof.
  pose proof (half_mass_le 0) as H. rewrite Normal.integral_refl in H. exact H.
Qed.

Lemma lower_mass_lower : 1 / 2 <= Normal.lower_mass.
Proof.
  assert (H : 1 - 4 * Normal.lower_mass ^ 2 <= 0).
  { apply le_of_forall_inv. intros k. generalize (lower_mass_sq_lower k). lra. }
  pose proof lower_mass_nonneg.
  destruct (Rle_lt_dec (1 / 2) Normal.lower_mass) as [Hle | Hlt]; [exact Hle |].
  exfalso. simpl in H. nra.
Qed.

(** The Gaussian integral: half of the mass lies below 0. *)
Lemma lower_mass_half : Normal.lower_mass = 1 / 2.
Proof. apply Rle_antisym; [apply lower_mass_upper | apply lower_mass_lower]. Qed.

(** Hence the distribution function is 1/2 plus the mass of [[0, x]]. *)
Lemma cdf_half (x : R) : Normal.cdf x = 1 / 2 + Normal.integral 0 x.
Proof. unfold Normal.cdf. rewrite lower_mass_half. reflexivity. Qed.

(** The total mass is 1. *)
Lemma cdf_symmetric (x : R) : Normal.cdf x + Normal.cdf (- x) = 1.
Proof. rewrite !cdf_half, integral_reflect. lra. Qed.

Lemma cdf_le_1 (x : R) : Normal.cdf x <= 1.
Proof. generalize (cdf_symmetric x), (Normal.cdf_nonneg (- x)). lra. Qed.

Lemma integral_monotone (x y : R) :
  x <= y -> Normal.integral 0 x <= Normal.integral 0 y.
Proof.
  intros H. pose proof (Normal.integral_chasles 0 x y).
  pose proof (Normal.integral_nonneg x y H). lra.
Qed.

End GaussianIntegral.

(* ================================================================= *)
(** ** Series enclosures of the exponential and of the distribution *)

Module Series.

Import GaussianIntegral.

(** The factorial, in [Z]. *)
Fixpoint Zfact (n : nat) : Z :=
  match n with
  | O => 1%Z
  | S k => (Z.of_nat (S k) * Zfact k)%Z
  end.

Lemma Zfact_pos (n : nat) : (0 < Zfact n)%Z.
Proof.
  induction n as [| n IH]; [reflexivity |].
  change (Zfact (S n)) with (Z.of_nat (S n) * Zfact n)%Z.
  apply Z.mul_pos_pos; [lia | exact IH].
Qed.

Lemma IZR_Zfact_pos (n : nat) : 0 < IZR (Zfact n).
Proof. apply IZR_lt, Zfact_pos. Qed.

Lemma IZR_Zfact_S (n : nat) : IZR (Zfact (S n)) = INR (S n) * IZR (Zfact n).
Proof.
  change (Zfact (S n)) with (Z.of_nat (S n) * Zfact n)%Z.
  rewrite mult_IZR, <- INR_IZR_INZ. reflexivity.
Qed.

(** Partial sums of the series of [exp (- x)]. *)
Fixpoint expT (n : nat) (x : R) : R :=
  match n with
  | O => 1
  | S k => expT k x + (- x) ^ S k / IZR (Zfact (S k))
  end.

Lemma expT_S (n : nat) (x : R) :
  expT (S n) x = expT n x + (- x) ^ S n / IZR (Zfact (S n)).
Proof. reflexivity. Qed.

Lemma expT_derivable (n : nat) (x : R) :
  derivable_pt_lim (expT (S n)) x (- expT n x).
Proof.
  assert (Hterm : forall k,
             derivable_pt_lim (fun x => (- x) ^ S k / IZR (Zfact (S k))) x
               (- ((- x) ^ k / IZR (Zfact k)))).
  { intros k.
    apply derivable_pt_lim_value
      with (l := INR (S k) * (- x) ^ k * -1 * / IZR (Zfact (S k))
                 + (- x) ^ S k * 0).
    - apply (derivable_pt_lim_mult (fun x => (- x) ^ S k)
                                   (fun _ => / IZR (Zfact (S k)))).
      + apply (derivable_pt_lim_comp (fun x => - x) (fun y => y ^ S k)).
        * apply neg_derivable.
        * apply (derivable_pt_lim_pow (- x) (S k)).
      + apply derivable_pt_lim_const.
    - rewrite IZR_Zfact_S. field.
      split; [generalize (IZR_Zfact_pos k); lra |].
      apply not_0_INR. discriminate. }
  induction n as [| n IH].
  - change (expT 1) with (fun x => 1 + (- x) ^ 1 / IZR (Zfact 1)).
    apply derivable_pt_lim_value with (l := 0 + - ((- x) ^ 0 / IZR (Zfact 0)));
      [| simpl; field].
    apply (derivable_pt_lim_plus (fun _ => 1)); [apply derivable_pt_lim_const |].
    apply Hterm.
  - change (expT (S (S n)))
      with (fun x => expT (S n) x + (- x) ^ S (S n) / IZR (Zfact (S (S n)))).
    apply derivable_pt_lim_value
      with (l := - expT n x + - ((- x) ^ S n / IZR (Zfact (S n))));
      [| rewrite (expT_S n); ring].
    apply (derivable_pt_lim_plus (expT (S n))); [exact IH | apply Hterm].
Qed.

Lemma exp_neg_derivable (x : R) :
  derivable_pt_lim (fun x => exp (- x)) x (- exp (- x)).
Proof.
  apply derivable_pt_lim_value with (l := exp (- x) * -1); [| ring].
  apply (derivable_pt_lim_comp (fun x => - x) exp).
  - apply neg_derivable.
  - apply derivable_pt_lim_exp.
Qed.

(** The partial sums alternate around [exp (- x)] for [x >= 0]. *)
Lemma expT_alternates (n : nat) (x : R) :
  0 <= x -> 0 <= (-1) ^ n * (expT n x - exp (- x)).
Proof.
  revert x. induction n as [| n IH]; intros x Hx.
  - simpl. assert (exp (- x) <= 1); [| lra].
    rewrite <- exp_0. destruct Hx as [Hx | <-].
    + left. apply exp_increasing. lra.
    + rewrite Ropp_0. lra.
  - pose (D := fun x => (-1) ^ S n * (expT (S n) x - exp (- x))).
    assert (H : D 0 <= D x).
    { apply (increasing_of_derivative D
               (fun x => (-1) ^ n * (expT n x - exp (- x))) 0 x); try lra.
      - intros c _. unfold D.
        apply derivable_pt_lim_value
          with (l := (-1) ^ S n * (- expT n c - - exp (- c)));
          [| rewrite <- tech_pow_Rmult; ring].
        apply (derivable_pt_lim_scal (fun x => expT (S n) x - exp (- x))).
        apply (derivable_pt_lim_minus (expT (S n)) (fun x => exp (- x)));
          [apply expT_derivable | apply exp_neg_derivable].
      - intros c Hc. apply IH. lra. }
    unfold D in H.
    assert (H0 : forall k, expT k 0 = 1).
    { intros k. induction k as [| k IHk]; [reflexivity |].
      rewrite expT_S, IHk, Ropp_0, pow_ne_zero by discriminate.
      unfold Rdiv. ring. }
    rewrite H0, Ropp_0, exp_0 in H.
    replace ((-1) ^ S n * (1 - 1)) with 0 in H by ring. exact H.
Qed.

Lemma expT_upper (m : nat) (x : R) : 0 <= x -> exp (- x) <= expT (2 * m) x.
Proof.
  intros Hx. pose proof (expT_alternates (2 * m) x Hx) as H.
  rewrite pow_1_even in H. lra.
Qed.

Lemma expT_lower (m : nat) (x : R) : 0 <= x -> expT (S (2 * m)) x <= exp (- x).
Proof.
  intros Hx. pose proof (expT_alternates (S (2 * m)) x Hx) as H.
  rewrite pow_1_odd in H. lra.
Qed.

(** The term of index [j] of the series of the primitive of
    [exp (- x^2 / 2)]. *)
Definition gauss_term (j : nat) (x : R) : R :=
  (-1) ^ j * x ^ S (2 * j)
  / (2 ^ j * IZR (Zfact j) * IZR (Z.of_nat (S (2 * j)))).

(** Partial sums of the series of the primitive of [exp (- x^2 / 2)]. *)
Fixpoint gaussA (n : nat) (x : R) : R :=
  match n with
  | O => x
  | S k => gaussA k x + gauss_term (S k) x
  end.

Lemma gaussA_S (n : nat) (x : R) :
  gaussA (S n) x = gaussA n x + gauss_term (S n) x.
Proof. reflexivity. Qed.

Lemma neg_half_pow (x : R) (j : nat) :
  (- (x ^ 2 / 2)) ^ j = (-1) ^ j * x ^ (2 * j) / 2 ^ j.
Proof.
  replace (- (x ^ 2 / 2)) with (-1 * (x ^ 2 * / 2)) by field.
  rewrite !Rpow_mult_distr, pow_inv, <- pow_mult. unfold Rdiv. ring.
Qed.

Lemma gauss_term_derivable (j : nat) (x : R) :
  derivable_pt_lim (gauss_term j) x ((- (x ^ 2 / 2)) ^ j / IZR (Zfact j)).
Proof.
  assert (H2 : 0 < 2 ^ j) by (apply pow_lt; lra).
  assert (Hf := IZR_Zfact_pos j).
  assert (Hn : 0 < INR (S (2 * j))) by (apply lt_0_INR; lia).
  unfold gauss_term. rewrite <- INR_IZR_INZ.
  apply derivable_pt_lim_value
    with (l := ((-1) ^ j * (INR (S (2 * j)) * x ^ (2 * j)))
               * / (2 ^ j * IZR (Zfact j) * INR (S (2 * j)))
               + (-1) ^ j * x ^ S (2 * j) * 0).
  - apply (derivable_pt_lim_mult
             (fun x => (-1) ^ j * x ^ S (2 * j))
             (fun _ => / (2 ^ j * IZR (Zfact j) * INR (S (2 * j))))).
    + apply (derivable_pt_lim_scal (fun x => x ^ S (2 * j)) ((-1) ^ j)).
      apply (derivable_pt_lim_pow x (S (2 * j))).
    + apply derivable_pt_lim_const.
  - rewrite neg_half_pow. field. repeat split; lra.
Qed.

Lemma gaussA_derivable (n : nat) (x : R) :
  derivable_pt_lim (gaussA n) x (expT n (x ^ 2 / 2)).
Proof.
  induction n as [| n IH].
  - simpl. apply derivable_pt_lim_id.
  - rewrite expT_S.
    change (gaussA (S n)) with (fun x => gaussA n x + gauss_term (S n) x).
    apply (derivable_pt_lim_plus (gaussA n) (gauss_term (S n)));
      [exact IH | apply gauss_term_derivable].
Qed.

Lemma gaussA_0 (n : nat) : gaussA n 0 = 0.
Proof.
  induction n as [| n IH]; [reflexivity |].
  rewrite gaussA_S, IH. unfold gauss_term.
  rewrite pow_ne_zero by discriminate. unfold Rdiv. ring.
Qed.

(** The partial sums alternate around the primitive for [x >= 0]. *)
Lemma gauss_primitive_upper (m : nat) (x : R) :
  0 <= x -> sqrt (2 * PI) * Normal.integral 0 x <= gaussA (2 * m) x.
Proof.
  intros Hx.
  pose (D := fun x => gaussA (2 * m) x - sqrt (2 * PI) * Normal.integral 0 x).
  assert (H : D 0 <= D x).
  { apply (increasing_of_derivative D
             (fun x => expT (2 * m) (x ^ 2 / 2) - exp (- x ^ 2 / 2)) 0 x);
      try lra.
    - intros c _. unfold D.
      apply (derivable_pt_lim_minus (gaussA (2 * m))
               (fun x => sqrt (2 * PI) * Normal.integral 0 x));
        [apply gaussA_derivable | apply scaled_integral_derivable].
    - intros c _. replace (- c ^ 2 / 2) with (- (c ^ 2 / 2)) by field.
      assert (0 <= c ^ 2 / 2) by (generalize (pow2_ge_0 c); lra).
      generalize (expT_upper m (c ^ 2 / 2)). lra. }
  unfold D in H. rewrite gaussA_0, Normal.integral_refl in H. lra.
Qed.

Lemma gauss_primitive_lower (m : nat) (x : R) :
  0 <= x -> gaussA (S (2 * m)) x <= sqrt (2 * PI) * Normal.integral 0 x.
Proof.
  intros Hx.
  pose (D := fun x => sqrt (2 * PI) * Normal.integral 0 x
                      - gaussA (S (2 * m)) x).
  assert (H : D 0 <= D x).
  { apply (increasing_of_derivative D
             (fun x => exp (- x ^ 2 / 2) - expT (S (2 * m)) (x ^ 2 / 2)) 0 x);
      try lra.
    - intros c _. unfold D.
      apply (derivable_pt_lim_minus
               (fun x => sqrt (2 * PI) * Normal.integral 0 x)
               (gaussA (S (2 * m))));
        [apply scaled_integral_derivable | apply gaussA_derivable].
    - intros c _. replace (- c ^ 2 / 2) with (- (c ^ 2 / 2)) by field.
      assert (0 <= c ^ 2 / 2) by (generalize (pow2_ge_0 c); lra).
      generalize (expT_lower m (c ^ 2 / 2)). lra. }
  unfold D in H. rewrite gaussA_0, Normal.integral_refl in H. lra.
Qed.

End Series.

(* ================================================================= *)
(** ** Enclosures at the reference parameters *)

Module Reference.

Import GaussianIntegral Series.

(** Unfolds a partial sum at a rational argument into a closed rational
    expression. *)
Ltac eval_series :=
  unfold gaussA, gauss_term, expT;
  cbn -[IZR pow Rdiv Rmult Rplus Rminus Ropp Rinv].

(** The quantities that enter the price at spot 110, strike 115,
    maturity 3, rate 0.05 and volatility 0.05. *)
Lemma ln_moneyness_bounds :
  - (4445177 / 100000000) <= ln (110 / 115) <= - (4445176 / 100000000).
Proof.
  split.
  - apply ln_lower.
    eapply Rle_trans; [apply (expT_upper 3); lra |].
    eval_series. lra.
  - apply ln_upper; [lra |].
    eapply Rle_trans; [| apply (expT_lower 3); lra].
    eval_series. lra.
Qed.

Lemma sqrt3_bounds : 17320508 / 10000000 <= sqrt 3 <= 17320509 / 10000000.
Proof. apply sqrt_between; lra. Qed.

Lemma discount_bounds :
  86070797 / 100000000 <= exp (- (15 / 100)) <= 86070798 / 100000000.
Proof.
  split.
  - eapply Rle_trans; [| apply (expT_lower 3); lra]. eval_series. lra.
  - eapply Rle_trans; [apply (expT_upper 3); lra |]. eval_series. lra.
Qed.

Lemma PI_bounds : 314159265 / 100000000 <= PI <= 314159266 / 100000000.
Proof.
  pose proof (PI_2_3_7_ineq 4) as [Hlo Hhi].
  unfold PI_2_3_7_tg, Ratan_seq, tg_alt in Hlo, Hhi.
  cbn -[IZR pow Rdiv Rmult Rplus Rminus Ropp Rinv PI] in Hlo, Hhi.
  split; lra.
Qed.

Lemma sqrt_2PI_bounds :
  25066282 / 10000000 <= sqrt (2 * PI) <= 25066283 / 10000000.
Proof. pose proof PI_bounds. apply sqrt_between; lra. Qed.

(** An enclosure of the half-line integral from rational bounds of its
    argument. *)
Lemma primitive_enclosure (m : nat) (lo d hi : R) :
  0 <= lo -> lo <= d -> d <= hi ->
  gaussA (S (2 * m)) lo <= sqrt (2 * PI) * Normal.integral 0 d
  /\ sqrt (2 * PI) * Normal.integral 0 d <= gaussA (2 * m) hi.
Proof.
  intros Hlo Hd Hhi.
  assert (Hc := Normal.sqrt_2PI_pos).
  split.
  - eapply Rle_trans; [apply gauss_primitive_lower; exact Hlo |].
    apply Rmult_le_compat_l; [lra | apply integral_monotone; exact Hd].
  - eapply Rle_trans; [| apply gauss_primitive_upper; lra].
    apply Rmult_le_compat_l; [lra | apply integral_monotone; exact Hhi].
Qed.

(** An enclosure of the distribution function, with [sqrt (2 * PI)]
    replaced by its rational bounds. *)
Lemma cdf_enclosure (m : nat) (lo d hi elo ehi : R) :
  0 <= lo -> lo <= d -> d <= hi -> 0 <= elo ->
  25066283 / 10000000 * elo <= gaussA (S (2 * m)) lo ->
  gaussA (2 * m) hi <= 25066282 / 10000000 * ehi ->
  1 / 2 + elo <= Normal.cdf d <= 1 / 2 + ehi.
Proof.
  intros Hlo Hd Hhi Helo Hl Hu.
  destruct (primitive_enclosure m lo d hi Hlo Hd Hhi) as [H1 H2].
  destruct sqrt_2PI_bounds as [Ha Hb].
  assert (HE : 0 <= Normal.integral 0 d) by (apply Normal.integral_nonneg; lra).
  assert (Ha' : 25066282 / 10000000 * Normal.integral 0 d
                <= sqrt (2 * PI) * Normal.integral 0 d)
    by (apply Rmult_le_compat_r; assumption).
  assert (Hb' : sqrt (2 * PI) * Normal.integral 0 d
                <= 25066283 / 10000000 * Normal.integral 0 d)
    by (apply Rmult_le_compat_r; assumption).
  rewrite cdf_half. split; lra.
Qed.

Lemma d1_reference_bounds :
  1262067 / 1000000 <= Spec.d1Value 110 115 3 0.05 0.05 <= 1262068 / 1000000.
Proof.
  unfold Spec.d1Value.
  destruct ln_moneyness_bounds as [Hl1 Hl2].
  destruct sqrt3_bounds as [Hs1 Hs2].
  assert (Hden : 0 < 0.05 * sqrt 3) by lra.
  split.
  - apply Rmult_le_reg_r with (0.05 * sqrt 3); [exact Hden |].
    unfold Rdiv at 2. rewrite Rmult_assoc, Rinv_l by lra. lra.
  - apply Rmult_le_reg_r with (0.05 * sqrt 3); [exact Hden |].
    unfold Rdiv at 1. rewrite Rmult_assoc, Rinv_l by lra. lra.
Qed.

Lemma d2_reference_bounds :
  1175464 / 1000000
  <= Spec.d1Value 110 115 3 0.05 0.05 - 0.05 * sqrt 3
  <= 1175466 / 1000000.
Proof.
  destruct d1_reference_bounds as [H1 H2].
  destruct sqrt3_bounds as [Hs1 Hs2]. split; lra.
Qed.

Lemma cdf_d1_reference :
  1 / 2 + 3965376 / 10000000
  <= Normal.cdf (Spec.d1Value 110 115 3 0.05 0.05)
  <= 1 / 2 + 3965379 / 10000000.
Proof.
  destruct d1_reference_bounds as [H1 H2].
  apply (cdf_enclosure 5 (1262067 / 1000000) _ (1262068 / 1000000));
    try lra; eval_series; lra.
Qed.

Lemma cdf_d2_reference :
  1 / 2 + 3800954 / 10000000
  <= Normal.cdf (Spec.d1Value 110 115 3 0.05 0.05 - 0.05 * sqrt 3)
  <= 1 / 2 + 3800959 / 10000000.
Proof.
  destruct d2_reference_bounds as [H1 H2].
  apply (cdf_enclosure 5 (1175464 / 1000000) _ (1175466 / 1000000));
    try lra; eval_series; lra.
Qed.

Lemma callValue_reference :
  Rabs (Spec.callValue 110 115 3 0.05 0.05 - 11.506) < 0.0005.
Proof.
  unfold Spec.callValue, Spec.d2Value.
  destruct cdf_d1_reference as [P1 P2].
  destruct cdf_d2_reference as [Q1 Q2].
  destruct discount_bounds as [D1 D2].
  replace (- (0.05) * 3) with (- (15 / 100)) by lra.
  set (p := Normal.cdf (Spec.d1Value 110 115 3 0.05 0.05)) in *.
  set (q := Normal.cdf (Spec.d1Value 110 115 3 0.05 0.05 - 0.05 * sqrt 3)) in *.
  set (D := exp (- (15 / 100))) in *.
  assert (Hlo : 86070797 / 100000000 * (1 / 2 + 3800954 / 10000000) <= D * q).
  { apply Rmult_le_compat; lra. }
  assert (Hhi : D * q <= 86070798 / 100000000 * (1 / 2 + 3800959 / 10000000)).
  { apply Rmult_le_compat; lra. }
  apply Rabs_def1; lra.
Qed.

End Reference.

(* ================================================================= *)
(** ** The Monte Carlo estimator on finite draws *)

Module Estimator.

Import Numpy.

Lemma sqrt_fin (T : R) : 0 <= T -> np_sqrt T = Fin (sqrt T).
Proof.
  intros H. unfold np_sqrt. destruct (Rlt_dec T 0); [lra | reflexivity].
Qed.

Lemma ST_fin (S_0 T r vola : R) (zs : list R) :
  0 <= T ->
  Valuation.ST S_0 T r vola (map Fin zs)
  = map Fin (map (Spec.terminalPrice S_0 T r vola) zs).
Proof.
  intros HT. unfold Valuation.ST. rewrite !map_map.
  apply map_ext. intros z. rewrite (sqrt_fin T HT). reflexivity.
Qed.

Lemma sum_fin_acc (l : list R) (acc : R) :
  fold_left f_add (map Fin l) (Fin acc) = Fin (acc + Spec.total l).
Proof.
  revert acc. induction l as [| x l IH]; intros acc; simpl.
  - f_equal. ring.
  - rewrite IH. f_equal. ring.
Qed.

Lemma sum_fin (l : list R) : np_sum (map Fin l) = Fin (Spec.total l).
Proof. unfold np_sum. rewrite sum_fin_acc. f_equal. ring. Qed.

Lemma total_scal (f : R -> R) (c : R) (l : list R) :
  Spec.total (map (fun x => f x * c) l) = c * Spec.total (map f l).
Proof.
  induction l as [| x l IH]; simpl.
  - ring.
  - rewrite IH. ring.
Qed.

Lemma total_nonneg (l : list R) :
  (forall x, In x l -> 0 <= x) -> 0 <= Spec.total l.
Proof.
  induction l as [| x l IH]; intros H; simpl.
  - lra.
  - assert (0 <= x) by (apply H; left; reflexivity).
    assert (0 <= Spec.total l) by (apply IH; intros y Hy; apply H; right; exact Hy).
    lra.
Qed.

Lemma div_by_count (x : R) (n : nat) :
  n <> O -> f_div (Fin x) (of_int (Z.of_nat n)) = Fin (x / INR n).
Proof.
  intros Hn. unfold f_div, of_int, Rzero.
  rewrite <- INR_IZR_INZ.
  destruct (Req_dec_T (INR n) 0) as [H0 | _]; [| reflexivity].
  apply (INR_eq n 0) in H0. contradiction.
Qed.

(** The estimator on an array of finite draws, for a non-negative
    maturity. *)
Lemma pv_fin (S_0 K T r vola : R) (zs : list R) :
  0 <= T -> zs <> [] ->
  Valuation.pv S_0 K T r vola (Z.of_nat (length zs)) (map Fin zs)
  = Fin (Spec.monteCarloValue S_0 K T r vola zs).
Proof.
  intros HT Hzs. unfold Valuation.pv.
  rewrite (ST_fin _ _ _ _ _ HT), !map_map.
  rewrite (map_ext _ (fun z => Fin (Spec.payoff K
                                      (Spec.terminalPrice S_0 T r vola z)
                                    * exp (- r * T))))
    by reflexivity.
  rewrite <- (map_map (fun z => Spec.payoff K
                                  (Spec.terminalPrice S_0 T r vola z)
                                * exp (- r * T)) Fin).
  rewrite sum_fin, div_by_count by (destruct zs; [contradiction | discriminate]).
  f_equal. rewrite total_scal. unfold Spec.monteCarloValue, Spec.mean.
  rewrite length_map. unfold Rdiv. ring.
Qed.

Lemma monteCarloValue_nonneg (S_0 K T r vola : R) (zs : list R) :
  0 <= Spec.monteCarloValue S_0 K T r vola zs.
Proof.
  unfold Spec.monteCarloValue, Spec.mean.
  apply Rmult_le_pos; [left; apply exp_pos |].
  apply Rmult_le_pos.
  - apply total_nonneg. intros x Hx. apply in_map_iff in Hx.
    destruct Hx as [z [<- _]]. unfold Spec.payoff. apply Rmax_r.
  - destruct (length (map _ zs)) as [| n].
    + simpl. rewrite Rinv_0. lra.
    + left. apply Rinv_0_lt_compat, lt_0_INR. lia.
Qed.

End Estimator.

(* ================================================================= *)
(** ** The Monte Carlo cell on the global generator *)

Module Cell.

Import Py Numpy.

Section Generator.

Variable rng_state : Type.
Variable next_normal : rng_state -> R * rng_state.

Lemma draws_length (n : nat) (g : rng_state) :
  length (fst (Valuation.draws next_normal n g)) = n.
Proof.
  revert g. induction n as [| n IH]; intros g; simpl.
  - reflexivity.
  - destruct (next_normal g) as [z g1]. specialize (IH g1).
    destruct (Valuation.draws next_normal n g1) as [zs g2].
    simpl in *. f_equal. exact IH.
Qed.

(** With a size that is not negative the cell draws, computes and returns. *)
Lemma MCS_runs (S_0 K T r vola : R) (I : Z) (g : rng_state) :
  (0 <= I)%Z ->
  Valuation.MCS next_normal S_0 K T r vola I g
  = (Ok (Valuation.pv S_0 K T r vola I
           (map Fin (fst (Valuation.draws next_normal (Z.to_nat I) g)))),
     snd (Valuation.draws next_normal (Z.to_nat I) g)).
Proof.
  intros HI. unfold Valuation.MCS, Valuation.standard_normal.
  destruct (Z.ltb_spec I 0) as [Hneg | _]; [lia |].
  destruct (Valuation.draws next_normal (Z.to_nat I) g) as [zs g'].
  reflexivity.
Qed.

(** A negative size is refused by [standard_normal]; nothing is drawn. *)
Lemma MCS_negative (S_0 K T r vola : R) (I : Z) (g : rng_state) :
  (I < 0)%Z ->
  Valuation.MCS next_normal S_0 K T r vola I g = (Raise ValueError, g).
Proof.
  intros HI. unfold Valuation.MCS, Valuation.standard_normal.
  destruct (Z.ltb_spec I 0) as [_ | Hpos]; [reflexivity | lia].
Qed.

(** With size 0 the estimator divides the empty sum by zero. *)
Lemma MCS_zero (S_0 K T r vola : R) (g : rng_state) :
  Valuation.MCS next_normal S_0 K T r vola 0 g = (Ok NaN, g).
Proof.
  rewrite MCS_runs by lia. simpl.
  unfold Valuation.pv, Valuation.ST, np_sum, of_int, f_div, Rzero. simpl.
  destruct (Req_dec_T 0 0) as [_ | H]; [reflexivity | contradiction].
Qed.

End Generator.

End Cell.

(** A concrete generator for closed instances of the statements below: the
    state is a counter, and the n-th draw is the number n. *)
Module Counter.

Definition rng_state : Type := Z.

Definition next_normal (g : rng_state) : R * rng_state :=
  (IZR g, (g + 1)%Z).

Definition seed_state (seed : Z) : rng_state := seed.

End Counter.

(* ================================================================= *)
(** ** The exceptions of the closed-form pricer *)

Lemma returns_not_raises {A : Type} (m : Py.result A) :
  Py.returns m -> ~ Py.raises m.
Proof. intros [a ->] [e H]. discriminate H. Qed.

Lemma quotient_nonzero (x y : R) : 0 < x / y -> y <> 0.
Proof.
  intros H ->. unfold Rdiv in H. rewrite Rinv_0, Rmult_0_r in H. lra.
Qed.

(** The first operation that fails decides the exception. *)
Lemma BSM_call_value_strike_zero (S_0 T r vola : R) :
  Valuation.BSM_call_value S_0 0 T r vola = Py.Raise Py.ZeroDivisionError.
Proof. unfold Valuation.BSM_call_value. rewrite truediv_zero. reflexivity. Qed.

Lemma BSM_call_value_log_domain (S_0 K T r vola : R) :
  K <> 0 -> S_0 / K <= 0 ->
  Valuation.BSM_call_value S_0 K T r vola = Py.Raise Py.ValueError.
Proof.
  intros HK Hq. unfold Valuation.BSM_call_value, Py.float.
  rewrite truediv_ok by exact HK. simpl.
  rewrite math_log_domain by exact Hq. reflexivity.
Qed.

Lemma BSM_call_value_sqrt_domain (S_0 K T r vola : R) :
  0 < S_0 / K -> T < 0 ->
  Valuation.BSM_call_value S_0 K T r vola = Py.Raise Py.ValueError.
Proof.
  intros Hq HT. unfold Valuation.BSM_call_value, Py.float.
  rewrite truediv_ok by (apply (quotient_nonzero S_0); exact Hq). simpl.
  rewrite math_log_ok by exact Hq. simpl.
  rewrite math_sqrt_domain by exact HT. reflexivity.
Qed.

Lemma BSM_call_value_zero_divisor (S_0 K T r vola : R) :
  0 < S_0 / K -> 0 <= T -> vola = 0 \/ T = 0 ->
  Valuation.BSM_call_value S_0 K T r vola = Py.Raise Py.ZeroDivisionError.
Proof.
  intros Hq HT Hz. unfold Valuation.BSM_call_value, Py.float.
  rewrite truediv_ok by (apply (quotient_nonzero S_0); exact Hq). simpl.
  rewrite math_log_ok by exact Hq. simpl.
  rewrite math_sqrt_ok by exact HT. simpl.
  replace (vola * sqrt T) with 0.
  - rewrite truediv_zero. reflexivity.
  - destruct Hz as [-> | ->]; [| rewrite sqrt_0]; ring.
Qed.

(** [OptionVega.vega] on a parameter set for which no operation fails. *)
Lemma vega_ok (S0 K T r vola : R) :
  0 < S0 / K -> 0 < T -> vola <> 0 ->
  OptionClass.vega (OptionClass.init_vega S0 K T r vola)
  = Py.Ok (Spec.vegaValue S0 K T r vola).
Proof.
  intros Hq HT Hv.
  assert (Hs : 0 < sqrt T) by (apply sqrt_lt_R0; exact HT).
  unfold OptionClass.vega, OptionClass.d1, OptionClass.init_vega,
    OptionClass.init, Py.float. simpl.
  rewrite truediv_ok by (apply (quotient_nonzero S0); exact Hq). simpl.
  rewrite math_log_ok by exact Hq. simpl.
  rewrite math_sqrt_ok by lra. simpl.
  rewrite truediv_ok by (apply Rmult_integral_contrapositive_currified; lra).
  simpl. rewrite norm_pdf_standard. reflexivity.
Qed.

(** Without seeding in between, two runs of the cell read different states
    of the generator, and their outputs can differ. *)
Remark MCS_twice_differs :
  fst (Valuation.MCS_twice Counter.next_normal 1 0 1 0 1 1 0%Z)
  <> snd (Valuation.MCS_twice Counter.next_normal 1 0 1 0 1 1 0%Z).
Proof.
  assert (H1 := Estimator.pv_fin 1 0 1 0 1 [0] ltac:(lra) ltac:(discriminate)).
  assert (H2 := Estimator.pv_fin 1 0 1 0 1 [1] ltac:(lra) ltac:(discriminate)).
  unfold Valuation.MCS_twice.
  rewrite !Cell.MCS_runs by lia.
  change (Z.to_nat 1) with 1%nat.
  cbn [fst snd Valuation.draws Counter.next_normal map Z.add Pos.add].
  cbn [length map Z.of_nat Pos.of_succ_nat] in H1, H2.
  rewrite H1, H2. intros H. injection H as H. revert H.
  unfold Spec.monteCarloValue, Spec.mean, Spec.total, Spec.payoff,
    Spec.terminalPrice.
  cbn [length map fold_right INR].
  rewrite sqrt_1.
  set (x0 := exp ((0 - 0.5 * 1 ^ 2) * 1 + 1 * 1 * 0)).
  set (x1 := exp ((0 - 0.5 * 1 ^ 2) * 1 + 1 * 1 * 1)).
  assert (Hlt : x0 < x1) by (apply exp_increasing; lra).
  assert (H0 : 0 < x0) by apply exp_pos.
  rewrite !Rmax_left by lra.
  assert (He : 0 < exp (- 0 * 1)) by apply exp_pos.
  intros H. nra.
Qed.

(* ================================================================= *)
(** ** Verified properties *)











(** C6: for spot 110, strike 115, maturity 3, rate 0.05 and volatility
    0.05 the closed-form pricer returns a value within 0.0005 of 11.506. *)
Theorem closed_form_reference_value :
  exists v : R,
    Valuation.BSM_call_value 110 115 3 0.05 0.05 = Py.Ok v
    /\ Rabs (v - 11.506) < 0.0005.
Proof.
  exists (Spec.callValue 110 115 3 0.05 0.05). split.
  - apply BSM_call_value_ok; lra.
  - apply Reference.callValue_reference.
Qed.





(** C9, the claim fails: with path count 0 the Monte Carlo cell raises
    nothing and returns [nan]. *)
Lemma zero_path_count_returns_nan :
  fst (Valuation.MCS Counter.next_normal 110 115 3 0.05 0.05 0 0%Z)
  = Py.Ok Numpy.NaN
  /\ ~ Py.raises
       (fst (Valuation.MCS Counter.next_normal 110 115 3 0.05 0.05 0 0%Z)).
Proof.
  rewrite Cell.MCS_zero. simpl. split; [reflexivity |].
  apply returns_not_raises. eexists. reflexivity.
Qed.

(** C9, amended: a negative path count makes the Monte Carlo cell fail at
    once with numpy's [ValueError], nothing being drawn and no result
    produced; with path count 0 no exception is raised and the result is
    [nan].  In both cases the generator state is left as it was. *)
Theorem nonpositive_path_count
  (rng_state : Type) (next_normal : rng_state -> R * rng_state)
  (spot strike maturity rate volatility : R) (pathCount : Z) (g : rng_state) :
  (pathCount <= 0)%Z ->
  Valuation.MCS next_normal spot strike maturity rate volatility pathCount g
  = (if (pathCount <? 0)%Z then Py.Raise Py.ValueError else Py.Ok Numpy.NaN,
     g).
Proof.
  intros HI. destruct (Z.ltb_spec pathCount 0) as [Hneg | Hzero].
  - apply Cell.MCS_negative. exact Hneg.
  - replace pathCount with 0%Z by lia. apply Cell.MCS_zero.
Qed.

Lemma nonpositive_path_count_witness :
  Valuation.MCS Counter.next_normal 110 115 3 0.05 0.05 (-5) 0%Z
  = (Py.Raise Py.ValueError, 0%Z).
Proof.
  apply (nonpositive_path_count Counter.rng_state Counter.next_normal
           110 115 3 0.05 0.05 (-5) 0%Z).
  lia.
Defined.

(** C10: given the same [(S0, K, T, r, vola)], [Option.Call_Option], also
    when called on an [OptionVega] instance, which inherits it, and the
    function [BSM_call_value] return the same result; this holds for every
    parameter set, hence for every valid one. *)
Theorem class_and_function_agree (S0 K T r vola : R) :
  OptionClass.Call_Option (OptionClass.init S0 K T r vola)
  = Valuation.BSM_call_value S0 K T r vola
  /\ OptionClass.Call_Option
       (OptionClass.base (OptionClass.init_vega S0 K T r vola))
     = Valuation.BSM_call_value S0 K T r vola.
Proof.
  split; [| unfold OptionClass.init_vega; simpl]; apply Call_Option_unfold.
Qed.

(* ================================================================= *)
(** ** Bounds and sensitivities of the closed-form price *)

Module Sensitivity.

Import Analysis.

(** The spot is the discounted strike times the forward moneyness. *)
Lemma spot_as_growth (S K T r v : R) :
  0 < S / K -> 0 < T -> v <> 0 ->
  S = K * exp (- r * T) * growth (v * sqrt T) (Spec.d1Value S K T r v).
Proof.
  intros Hq HT Hv.
  assert (HK : K <> 0) by (apply (quotient_nonzero S); exact Hq).
  unfold growth. rewrite d1_scaled by assumption.
  replace ((v * sqrt T) ^ 2) with (v ^ 2 * sqrt T ^ 2) by ring.
  rewrite pow2_sqrt by lra.
  replace (ln (S / K) + (r + 0.5 * v ^ 2) * T - v ^ 2 * T / 2)
    with (ln (S / K) + r * T) by lra.
  rewrite exp_plus, exp_ln by exact Hq.
  replace (- r * T) with (- (r * T)) by ring.
  rewrite exp_Ropp.
  assert (exp (r * T) <> 0) by (generalize (exp_pos (r * T)); lra).
  field. split; assumption.
Qed.

Lemma growth_opp (a d : R) : growth a (- (d - a)) = / growth a d.
Proof.
  unfold growth. rewrite <- exp_Ropp. f_equal. field.
Qed.

(** The price above its forward intrinsic value is a spread again: the
    value of the put. *)
Lemma callValue_parity (S K T r v : R) :
  0 < S / K -> 0 < T -> v <> 0 ->
  Spec.callValue S K T r v - (S - K * exp (- r * T))
  = S * spread (v * sqrt T)
          (- (Spec.d1Value S K T r v - v * sqrt T)).
Proof.
  intros Hq HT Hv.
  pose proof (spot_as_growth S K T r v Hq HT Hv) as HS.
  unfold Spec.callValue, Spec.d2Value, spread.
  set (a := v * sqrt T) in *. set (d := Spec.d1Value S K T r v) in *.
  rewrite growth_opp.
  replace (- (d - a) - a) with (- d) by ring.
  pose proof (GaussianIntegral.cdf_symmetric d) as H1.
  pose proof (GaussianIntegral.cdf_symmetric (d - a)) as H2.
  assert (Hg : 0 < growth a d) by apply growth_pos.
  replace (Normal.cdf (- d)) with (1 - Normal.cdf d) by lra.
  replace (Normal.cdf (- (d - a))) with (1 - Normal.cdf (d - a)) by lra.
  set (k := K * exp (- r * T)) in *.
  assert (Hk : S * / growth a d = k).
  { rewrite HS at 1. field. lra. }
  replace (S * (/ growth a d * (1 - Normal.cdf (d - a)) - (1 - Normal.cdf d)))
    with (S * / growth a d * (1 - Normal.cdf (d - a))
          - S * (1 - Normal.cdf d)) by ring.
  rewrite Hk. ring.
Qed.

Lemma callValue_lower (S K T r v : R) :
  0 < S -> 0 < K -> 0 < T -> 0 < v ->
  S - K * exp (- r * T) <= Spec.callValue S K T r v.
Proof.
  intros HS HK HT Hv.
  pose proof (callValue_parity S K T r v) as H.
  assert (0 < sqrt T) by (apply sqrt_lt_R0; exact HT).
  assert (0 <= S * spread (v * sqrt T)
                   (- (Spec.d1Value S K T r v - v * sqrt T))).
  { apply Rmult_le_pos; [lra |]. apply spread_nonneg.
    apply Rmult_le_pos; lra. }
  rewrite <- H in H1 by (try apply valid_quotient; lra). lra.
Qed.

Lemma callValue_upper (S K T r v : R) :
  0 < S -> 0 < K -> Spec.callValue S K T r v <= S.
Proof.
  intros HS HK. unfold Spec.callValue.
  pose proof (GaussianIntegral.cdf_le_1 (Spec.d1Value S K T r v)).
  pose proof (Normal.cdf_nonneg (Spec.d2Value S K T r v)).
  assert (0 <= K * exp (- r * T) * Normal.cdf (Spec.d2Value S K T r v)).
  { apply Rmult_le_pos; [| assumption].
    apply Rmult_le_pos; [lra | left; apply exp_pos]. }
  assert (S * Normal.cdf (Spec.d1Value S K T r v) <= S * 1)
    by (apply Rmult_le_compat_l; lra).
  lra.
Qed.


(** The price per unit of spot, as a function of [d1]. *)
Definition cover (a d : R) : R :=
  Normal.cdf d - / growth a d * Normal.cdf (d - a).

Lemma inv_growth_derivable (a d : R) :
  derivable_pt_lim (fun d => / growth a d) d (- a * / growth a d).
Proof.
  apply derivable_pt_lim_value
    with (l := exp (- (a * d - a ^ 2 / 2)) * (- a));
    [| unfold growth; rewrite exp_Ropp; ring].
  apply (derivable_pt_lim_local (fun d => exp (- a * d + a ^ 2 / 2)))
    with (d := 1); [lra | |].
  - intros y _. unfold growth. rewrite <- exp_Ropp. f_equal. field.
  - replace (- (a * d - a ^ 2 / 2)) with (- a * d + a ^ 2 / 2) by field.
    apply (derivable_pt_lim_comp (fun d => - a * d + a ^ 2 / 2) exp);
      [apply affine_derivable | apply derivable_pt_lim_exp].
Qed.

Lemma cover_derivable (a d : R) :
  derivable_pt_lim (cover a) d (a * / growth a d * Normal.cdf (d - a)).
Proof.
  assert (Hg : growth a d <> 0) by (generalize (growth_pos a d); lra).
  apply derivable_pt_lim_value
    with (l := Normal.pdf d
               - (- a * / growth a d * Normal.cdf (d - a)
                  + / growth a d * Normal.pdf (d - a)));
    [| rewrite pdf_shift; field; exact Hg].
  unfold cover.
  apply (derivable_pt_lim_minus Normal.cdf
           (fun d => / growth a d * Normal.cdf (d - a)));
    [apply Normal.cdf_derivable |].
  apply (derivable_pt_lim_mult (fun d => / growth a d)
                               (fun d => Normal.cdf (d - a)));
    [apply inv_growth_derivable | apply shifted_cdf_derivable].
Qed.

Lemma cover_increasing (a x y : R) :
  0 <= a -> x <= y -> cover a x <= cover a y.
Proof.
  intros Ha Hxy.
  apply (increasing_of_derivative (cover a)
           (fun d => a * / growth a d * Normal.cdf (d - a)) x y); try lra.
  - intros c _. apply cover_derivable.
  - intros c _. apply Rmult_le_pos; [| apply Normal.cdf_nonneg].
    apply Rmult_le_pos; [exact Ha |].
    left. apply Rinv_0_lt_compat, growth_pos.
Qed.

Lemma callValue_cover (S K T r v : R) :
  0 < S / K -> 0 < T -> v <> 0 ->
  Spec.callValue S K T r v
  = S * cover (v * sqrt T) (Spec.d1Value S K T r v).
Proof.
  intros Hq HT Hv.
  pose proof (spot_as_growth S K T r v Hq HT Hv) as HS.
  unfold Spec.callValue, Spec.d2Value, cover.
  set (a := v * sqrt T) in *. set (d := Spec.d1Value S K T r v) in *.
  set (k := K * exp (- r * T)) in *.
  assert (Hg : 0 < growth a d) by apply growth_pos.
  assert (Hk : S * / growth a d = k).
  { rewrite HS at 1. field. lra. }
  replace (S * (Normal.cdf d - / growth a d * Normal.cdf (d - a)))
    with (S * Normal.cdf d - S * / growth a d * Normal.cdf (d - a)) by ring.
  rewrite Hk. reflexivity.
Qed.

Lemma d1_decreasing_in_strike (S K1 K2 T r v : R) :
  0 < S -> 0 < K1 -> K1 <= K2 -> 0 < T -> 0 < v ->
  Spec.d1Value S K2 T r v <= Spec.d1Value S K1 T r v.
Proof.
  intros HS HK1 HK HT Hv. unfold Spec.d1Value.
  assert (0 < sqrt T) by (apply sqrt_lt_R0; exact HT).
  apply Rmult_le_compat_r.
  - left. apply Rinv_0_lt_compat, Rmult_lt_0_compat; assumption.
  - assert (ln (S / K2) <= ln (S / K1)); [| lra].
    destruct HK as [HK | ->]; [| lra].
    left. apply ln_increasing.
    + apply Rdiv_lt_0_compat; lra.
    + apply Rmult_lt_compat_l; [exact HS |].
      apply Rinv_lt_contravar; [apply Rmult_lt_0_compat; lra | exact HK].
Qed.

Lemma d1_increasing_in_rate (S K T r1 r2 v : R) :
  r1 <= r2 -> 0 < T -> 0 < v ->
  Spec.d1Value S K T r1 v <= Spec.d1Value S K T r2 v.
Proof.
  intros Hr HT Hv. unfold Spec.d1Value.
  assert (0 < sqrt T) by (apply sqrt_lt_R0; exact HT).
  apply Rmult_le_compat_r.
  - left. apply Rinv_0_lt_compat, Rmult_lt_0_compat; assumption.
  - assert (r1 * T <= r2 * T) by (apply Rmult_le_compat_r; lra). lra.
Qed.

Lemma callValue_decreasing_in_strike (S K1 K2 T r v : R) :
  0 < S -> 0 < K1 -> K1 <= K2 -> 0 < T -> 0 < v ->
  Spec.callValue S K2 T r v <= Spec.callValue S K1 T r v.
Proof.
  intros HS HK1 HK HT Hv.
  rewrite !callValue_cover by (try apply valid_quotient; lra).
  assert (0 < sqrt T) by (apply sqrt_lt_R0; exact HT).
  apply Rmult_le_compat_l; [lra |].
  apply cover_increasing.
  - apply Rmult_le_pos; lra.
  - apply d1_decreasing_in_strike; assumption.
Qed.

Lemma callValue_increasing_in_rate (S K T r1 r2 v : R) :
  0 < S -> 0 < K -> 0 < T -> 0 < v -> r1 <= r2 ->
  Spec.callValue S K T r1 v <= Spec.callValue S K T r2 v.
Proof.
  intros HS HK HT Hv Hr.
  rewrite !callValue_cover by (try apply valid_quotient; lra).
  assert (0 < sqrt T) by (apply sqrt_lt_R0; exact HT).
  apply Rmult_le_compat_l; [lra |].
  apply cover_increasing.
  - apply Rmult_le_pos; lra.
  - apply d1_increasing_in_rate; assumption.
Qed.


Lemma d1_derivable_in_volatility (S K T r v : R) :
  0 < T -> v <> 0 ->
  exists l : R, derivable_pt_lim (fun x => Spec.d1Value S K T r x) v l.
Proof.
  intros HT Hv.
  assert (Hs : 0 < sqrt T) by (apply sqrt_lt_R0; exact HT).
  pose (f1 := fun x : R => ln (S / K) + (r + 0.5 * x ^ 2) * T).
  pose (f2 := fun x : R => x * sqrt T).
  assert (H1 : derivable_pt_lim f1 v (0.5 * T * (INR 2 * v ^ 1))).
  { apply (derivable_pt_lim_local
             (fun x => 0.5 * T * x ^ 2 + (ln (S / K) + r * T)))
      with (d := 1); [lra | intros y _; unfold f1; ring |].
    apply (derivable_pt_lim_comp (fun x => x ^ 2)
             (fun u => 0.5 * T * u + (ln (S / K) + r * T))).
    - apply (derivable_pt_lim_pow v 2).
    - apply affine_derivable. }
  assert (H2 : derivable_pt_lim f2 v (sqrt T)).
  { apply (derivable_pt_lim_local (fun x => sqrt T * x + 0)) with (d := 1);
      [lra | intros y _; unfold f2; ring | apply affine_derivable]. }
  assert (Hnz : f2 v <> 0)
    by (unfold f2; apply Rmult_integral_contrapositive_currified; lra).
  eexists. exact (derivable_pt_lim_div f1 f2 v _ _ H1 H2 Hnz).
Qed.

(** The derivative of the price in the volatility is the vega. *)
Lemma callValue_vega_derivative (S K T r v : R) :
  0 < S / K -> 0 < T -> v <> 0 ->
  derivable_pt_lim (fun x => Spec.callValue S K T r x) v
    (Spec.vegaValue S K T r v).
Proof.
  intros Hq HT Hv.
  destruct (d1_derivable_in_volatility S K T r v HT Hv) as [l Hl].
  pose proof (spot_as_growth S K T r v Hq HT Hv) as HS.
  set (d := Spec.d1Value S K T r v) in *.
  apply derivable_pt_lim_value
    with (l := S * (Normal.pdf d * l)
               - K * exp (- r * T)
                 * (Normal.pdf (d - v * sqrt T) * (l - sqrt T))).
  - unfold Spec.callValue, Spec.d2Value.
    apply (derivable_pt_lim_minus
             (fun x => S * Normal.cdf (Spec.d1Value S K T r x))
             (fun x => K * exp (- r * T)
                       * Normal.cdf (Spec.d1Value S K T r x - x * sqrt T))).
    + apply (derivable_pt_lim_scal
               (fun x => Normal.cdf (Spec.d1Value S K T r x)) S).
      apply (derivable_pt_lim_comp (fun x => Spec.d1Value S K T r x)
                                   Normal.cdf);
        [exact Hl | apply Normal.cdf_derivable].
    + apply (derivable_pt_lim_scal
               (fun x => Normal.cdf (Spec.d1Value S K T r x - x * sqrt T))
               (K * exp (- r * T))).
      apply (derivable_pt_lim_comp
               (fun x => Spec.d1Value S K T r x - x * sqrt T) Normal.cdf);
        [| apply Normal.cdf_derivable].
      apply (derivable_pt_lim_minus (fun x => Spec.d1Value S K T r x)
                                    (fun x => x * sqrt T));
        [exact Hl |].
      apply (derivable_pt_lim_local (fun x => sqrt T * x + 0)) with (d := 1);
        [lra | intros y _; ring | apply affine_derivable].
  - rewrite pdf_shift. unfold Spec.vegaValue. fold d.
    set (g := growth (v * sqrt T) d) in *.
    set (k := K * exp (- r * T)) in *.
    assert (Hk : k * g = S) by (symmetry; exact HS).
    replace (k * (Normal.pdf d * g * (l - sqrt T)))
      with (k * g * (Normal.pdf d * (l - sqrt T))) by ring.
    rewrite Hk. ring.
Qed.

Lemma vegaValue_nonneg (S K T r v : R) :
  0 <= S -> 0 <= Spec.vegaValue S K T r v.
Proof.
  intros HS. unfold Spec.vegaValue.
  apply Rmult_le_pos; [| apply sqrt_pos].
  apply Rmult_le_pos; [exact HS | left; apply Normal.pdf_pos].
Qed.

Lemma callValue_increasing_in_volatility (S K T r v1 v2 : R) :
  0 < S -> 0 < K -> 0 < T -> 0 < v1 -> v1 <= v2 ->
  Spec.callValue S K T r v1 <= Spec.callValue S K T r v2.
Proof.
  intros HS HK HT Hv1 Hv.
  apply (increasing_of_derivative (fun x => Spec.callValue S K T r x)
           (fun x => Spec.vegaValue S K T r x) v1 v2); try lra.
  - intros c Hc. apply callValue_vega_derivative;
      [apply valid_quotient; assumption | exact HT | lra].
  - intros c _. apply vegaValue_nonneg. lra.
Qed.

(** With the volatility negated, [d1] and [d2] change sign. *)
Lemma d1_negated_volatility (S K T r v : R) :
  0 < T -> v <> 0 ->
  Spec.d1Value S K T r (- v) = - Spec.d1Value S K T r v.
Proof.
  intros HT Hv. unfold Spec.d1Value.
  assert (0 < sqrt T) by (apply sqrt_lt_R0; exact HT).
  field. split; lra.
Qed.

Lemma callValue_negated_volatility (S K T r v : R) :
  0 < T -> v <> 0 ->
  Spec.callValue S K T r (- v)
  = S - K * exp (- r * T) - Spec.callValue S K T r v.
Proof.
  intros HT Hv. unfold Spec.callValue, Spec.d2Value.
  rewrite d1_negated_volatility by assumption.
  set (d := Spec.d1Value S K T r v).
  replace (- d - - v * sqrt T) with (- (d - v * sqrt T)) by ring.
  pose proof (GaussianIntegral.cdf_symmetric d).
  pose proof (GaussianIntegral.cdf_symmetric (d - v * sqrt T)).
  replace (Normal.cdf (- d)) with (1 - Normal.cdf d) by lra.
  replace (Normal.cdf (- (d - v * sqrt T)))
    with (1 - Normal.cdf (d - v * sqrt T)) by lra.
  ring.
Qed.


(** The density is largest at 0. *)
Lemma pdf_le_mode (x : R) : Normal.pdf x <= / sqrt (2 * PI).
Proof.
  assert (He : exp (- x ^ 2 / 2) <= 1).
  { rewrite <- exp_0.
    assert (H : - x ^ 2 / 2 <= 0) by (generalize (pow2_ge_0 x); lra).
    destruct H as [H | H]; [left; apply exp_increasing; exact H |].
    rewrite H. lra. }
  assert (Hc : 0 < / sqrt (2 * PI))
    by (apply Rinv_0_lt_compat, Normal.sqrt_2PI_pos).
  unfold Normal.pdf, Rdiv.
  assert (exp (- x ^ 2 * / 2) * / sqrt (2 * PI) <= 1 * / sqrt (2 * PI));
    [| lra].
  apply Rmult_le_compat_r; [lra | exact He].
Qed.

Lemma cdf_increment (x y : R) :
  x <= y -> Normal.cdf y - Normal.cdf x <= (y - x) / sqrt (2 * PI).
Proof.
  intros Hxy.
  pose (F := fun t => t * / sqrt (2 * PI) - Normal.cdf t).
  assert (H : F x <= F y).
  { apply (increasing_of_derivative F
             (fun t => / sqrt (2 * PI) - Normal.pdf t) x y); try lra.
    - intros c _. unfold F.
      apply (derivable_pt_lim_minus (fun t => t * / sqrt (2 * PI)) Normal.cdf);
        [| apply Normal.cdf_derivable].
      apply (derivable_pt_lim_local (fun t => / sqrt (2 * PI) * t + 0))
        with (d := 1); [lra | intros; ring | apply affine_derivable].
    - intros c _. generalize (pdf_le_mode c). lra. }
  unfold F in H. unfold Rdiv. lra.
Qed.

(** The time value: the price exceeds its forward intrinsic value by at
    most [S * v * sqrt T / sqrt (2 * PI)]. *)
Lemma callValue_time_value (S K T r v : R) :
  0 < S -> 0 < K -> 0 < T -> 0 < v ->
  Spec.callValue S K T r v
  <= Rmax (S - K * exp (- r * T)) 0 + S * (v * sqrt T) / sqrt (2 * PI).
Proof.
  intros HS HK HT Hv.
  assert (Hs : 0 < sqrt T) by (apply sqrt_lt_R0; exact HT).
  unfold Spec.callValue, Spec.d2Value.
  set (d := Spec.d1Value S K T r v). set (a := v * sqrt T).
  set (k := K * exp (- r * T)).
  assert (Ha : 0 < a) by (apply Rmult_lt_0_compat; assumption).
  pose proof (cdf_increment (d - a) d ltac:(lra)) as Hinc.
  replace (d - (d - a)) with a in Hinc by ring.
  pose proof (Normal.cdf_nonneg (d - a)) as H0.
  pose proof (GaussianIntegral.cdf_le_1 (d - a)) as H1.
  assert (Hc := Normal.sqrt_2PI_pos).
  assert (Hinc' : S * (Normal.cdf d - Normal.cdf (d - a))
                  <= S * (a / sqrt (2 * PI)))
    by (apply Rmult_le_compat_l; lra).
  assert (Hm : (S - k) * Normal.cdf (d - a) <= Rmax (S - k) 0).
  { destruct (Rle_lt_dec 0 (S - k)) as [Hp | Hn].
    - rewrite Rmax_left by exact Hp.
      rewrite <- (Rmult_1_r (S - k)) at 2.
      apply Rmult_le_compat_l; assumption.
    - rewrite Rmax_right by lra.
      assert (0 <= (k - S) * Normal.cdf (d - a))
        by (apply Rmult_le_pos; lra).
      lra. }
  replace (S * a / sqrt (2 * PI)) with (S * (a / sqrt (2 * PI)))
    by (unfold Rdiv; ring).
  replace (S * Normal.cdf d - k * Normal.cdf (d - a))
    with (S * (Normal.cdf d - Normal.cdf (d - a))
          + (S - k) * Normal.cdf (d - a)) by ring.
  lra.
Qed.


Lemma exp_near_one (x : R) : x <= 1 / 2 -> Rabs (exp x - 1) <= 2 * Rabs x.
Proof.
  intros Hx. pose proof (exp_ineq1_le x) as Hlo.
  destruct (Rle_lt_dec 0 x) as [Hp | Hn].
  - rewrite (Rabs_right x) by lra.
    pose proof (exp_ineq1_le (- x)) as Hm. rewrite exp_Ropp in Hm.
    assert (He : 0 < exp x) by apply exp_pos.
    assert (Hup : exp x * (1 - x) <= 1).
    { replace 1 with (exp x * / exp x) at 2 by (field; lra).
      apply Rmult_le_compat_l; lra. }
    assert (exp x <= 1 + 2 * x) by nra.
    rewrite Rabs_right by lra. lra.
  - rewrite (Rabs_left x) by exact Hn.
    assert (exp x < 1)
      by (rewrite <- exp_0; apply exp_increasing; exact Hn).
    rewrite Rabs_left by lra. lra.
Qed.

Lemma Rabs_le_between (x b : R) : Rabs x <= b -> - b <= x <= b.
Proof.
  intros H. generalize (Rle_abs x), (Rle_abs (- x)). rewrite Rabs_Ropp. lra.
Qed.

Lemma Rmax_shift (x y : R) : Rabs (Rmax x 0 - Rmax y 0) <= Rabs (x - y).
Proof.
  unfold Rmax. destruct (Rle_dec x 0), (Rle_dec y 0);
    unfold Rabs; repeat destruct (Rcase_abs _); lra.
Qed.

(** The price is within [S * v * sqrt T / sqrt (2 * PI)
    + K * |exp (- r * T) - 1|] of its intrinsic value. *)
Lemma callValue_near_intrinsic (S K T r v : R) :
  0 < S -> 0 < K -> 0 < T -> 0 < v ->
  Rabs (Spec.callValue S K T r v - Rmax (S - K) 0)
  <= S * (v * sqrt T) / sqrt (2 * PI) + K * Rabs (exp (- r * T) - 1).
Proof.
  intros HS HK HT Hv.
  pose proof (callValue_time_value S K T r v HS HK HT Hv) as Hup.
  pose proof (callValue_lower S K T r v HS HK HT Hv) as Hlo.
  pose proof (callValue_nonneg S K T r v HS HK HT Hv) as H0.
  assert (Hlo' : Rmax (S - K * exp (- r * T)) 0 <= Spec.callValue S K T r v)
    by (apply Rmax_lub; assumption).
  pose proof (Rmax_shift (S - K * exp (- r * T)) (S - K)) as Hsh.
  replace (S - K * exp (- r * T) - (S - K))
    with (- (K * (exp (- r * T) - 1))) in Hsh by ring.
  rewrite Rabs_Ropp, Rabs_mult, (Rabs_right K) in Hsh by lra.
  assert (Hs : 0 < sqrt T) by (apply sqrt_lt_R0; exact HT).
  assert (Hc := Normal.sqrt_2PI_pos).
  assert (Ht : 0 <= S * (v * sqrt T) / sqrt (2 * PI)).
  { apply Rmult_le_pos; [| left; apply Rinv_0_lt_compat; exact Hc].
    apply Rmult_le_pos; [lra |]. apply Rmult_le_pos; lra. }
  apply Rabs_le_between in Hsh. apply Rabs_le. split; lra.
Qed.

(** At expiry: the price tends to the intrinsic value as the maturity
    tends to 0 from above. *)
Lemma callValue_at_expiry (S K r v eps : R) :
  0 < S -> 0 < K -> 0 < v -> 0 < eps ->
  exists delta : R,
    0 < delta
    /\ forall T : R,
        0 < T < delta ->
        Rabs (Spec.callValue S K T r v - Rmax (S - K) 0) < eps.
Proof.
  intros HS HK Hv Heps.
  assert (Hc := Normal.sqrt_2PI_pos).
  pose (eta := eps * sqrt (2 * PI) / (4 * S * v)).
  assert (Heta : 0 < eta).
  { unfold eta. apply Rdiv_lt_0_compat; [| nra].
    apply Rmult_lt_0_compat; lra. }
  pose (rho := Rabs r + 1).
  assert (Hrho : 0 < rho) by (unfold rho; generalize (Rabs_pos r); lra).
  pose (d2 := eps / (8 * K * rho)).
  assert (Hd2 : 0 < d2).
  { unfold d2. apply Rdiv_lt_0_compat; [lra |].
    apply Rmult_lt_0_compat; lra. }
  pose (d3 := / (2 * rho)).
  assert (Hd3 : 0 < d3) by (unfold d3; apply Rinv_0_lt_compat; lra).
  exists (Rmin (eta ^ 2) (Rmin d2 d3)). split.
  - repeat apply Rmin_pos; try assumption. apply pow_lt. exact Heta.
  - intros T [HT0 HT].
    assert (HT1 : T < eta ^ 2) by (eapply Rlt_le_trans; [exact HT | apply Rmin_l]).
    assert (HT2 : T < d2).
    { eapply Rlt_le_trans; [exact HT |].
      eapply Rle_trans; [apply Rmin_r | apply Rmin_l]. }
    assert (HT3 : T < d3).
    { eapply Rlt_le_trans; [exact HT |].
      eapply Rle_trans; [apply Rmin_r | apply Rmin_r]. }
    eapply Rle_lt_trans; [apply callValue_near_intrinsic; assumption |].
    assert (Hsq : sqrt T < eta).
    { rewrite <- (sqrt_pow2 eta) by lra.
      apply sqrt_lt_1_alt. lra. }
    assert (H1 : S * (v * sqrt T) / sqrt (2 * PI) < eps / 4).
    { apply Rmult_lt_reg_r with (sqrt (2 * PI)); [exact Hc |].
      unfold Rdiv at 1. rewrite Rmult_assoc, Rinv_l, Rmult_1_r by lra.
      assert (S * v * sqrt T < S * v * eta)
        by (apply Rmult_lt_compat_l; [nra | exact Hsq]).
      replace (S * v * eta) with (eps / 4 * sqrt (2 * PI)) in H
        by (unfold eta; field; lra).
      lra. }
    assert (HrT : Rabs (- r * T) <= rho * T).
    { rewrite Rabs_mult, Rabs_Ropp, (Rabs_right T) by lra.
      apply Rmult_le_compat_r; [lra | unfold rho; lra]. }
    assert (Hhalf : rho * T < 1 / 2).
    { replace (1 / 2) with (rho * d3) by (unfold d3; field; lra).
      apply Rmult_lt_compat_l; assumption. }
    assert (Hx : - r * T <= 1 / 2).
    { generalize (Rle_abs (- r * T)). lra. }
    pose proof (exp_near_one (- r * T) Hx) as He.
    assert (H2 : K * Rabs (exp (- r * T) - 1) < eps / 2).
    { assert (K * Rabs (exp (- r * T) - 1) <= K * (2 * (rho * T)))
        by (apply Rmult_le_compat_l; lra).
      assert (K * (2 * (rho * T)) < K * (2 * (rho * d2))).
      { apply Rmult_lt_compat_l; [exact HK |].
        apply Rmult_lt_compat_l; [lra |].
        apply Rmult_lt_compat_l; assumption. }
      replace (K * (2 * (rho * d2))) with (eps / 4) in H0
        by (unfold d2; field; lra).
      lra. }
    lra.
Qed.

(** At zero volatility: the price tends to the forward intrinsic value as
    the volatility tends to 0 from above. *)
Lemma callValue_at_zero_volatility (S K T r eps : R) :
  0 < S -> 0 < K -> 0 < T -> 0 < eps ->
  exists delta : R,
    0 < delta
    /\ forall v : R,
        0 < v < delta ->
        Rabs (Spec.callValue S K T r v - Rmax (S - K * exp (- r * T)) 0)
        < eps.
Proof.
  intros HS HK HT Heps.
  assert (Hc := Normal.sqrt_2PI_pos).
  assert (Hs : 0 < sqrt T) by (apply sqrt_lt_R0; exact HT).
  pose (delta := eps * sqrt (2 * PI) / (S * sqrt T)).
  assert (Hdelta : 0 < delta).
  { unfold delta. apply Rdiv_lt_0_compat; apply Rmult_lt_0_compat; lra. }
  exists delta. split; [exact Hdelta |].
  intros v [Hv0 Hv].
  pose proof (callValue_time_value S K T r v HS HK HT Hv0) as Hup.
  pose proof (callValue_lower S K T r v HS HK HT Hv0) as Hlo.
  pose proof (callValue_nonneg S K T r v HS HK HT Hv0) as H0.
  assert (Hlo' : Rmax (S - K * exp (- r * T)) 0 <= Spec.callValue S K T r v)
    by (apply Rmax_lub; assumption).
  assert (H1 : S * (v * sqrt T) / sqrt (2 * PI) < eps).
  { apply Rmult_lt_reg_r with (sqrt (2 * PI)); [exact Hc |].
    unfold Rdiv at 1. rewrite Rmult_assoc, Rinv_l, Rmult_1_r by lra.
    assert (S * sqrt T * v < S * sqrt T * delta)
      by (apply Rmult_lt_compat_l; [nra | exact Hv]).
    replace (S * sqrt T * delta) with (eps * sqrt (2 * PI)) in H
      by (unfold delta; field; lra).
    lra. }
  apply Rabs_def1; lra.
Qed.

End Sensitivity.

(* ================================================================= *)
(** ** Sums over the simulated paths *)

Module Paths.

Import Numpy.

(** The payoff of one path, discounted. *)
Definition discounted (S_0 K T r vola z : R) : R :=
  Spec.payoff K (Spec.terminalPrice S_0 T r vola z) * exp (- r * T).

(** The estimator on finite draws, for any count [I]. *)
Lemma pv_sum (S_0 K T r vola : R) (I : Z) (zs : list R) :
  0 <= T ->
  Valuation.pv S_0 K T r vola I (map Fin zs)
  = f_div (Fin (Spec.total (map (discounted S_0 K T r vola) zs))) (of_int I).
Proof.
  intros HT. unfold Valuation.pv.
  rewrite (Estimator.ST_fin _ _ _ _ _ HT), !map_map.
  rewrite (map_ext _ (fun z => Fin (discounted S_0 K T r vola z)))
    by reflexivity.
  rewrite <- (map_map (discounted S_0 K T r vola) Fin).
  rewrite Estimator.sum_fin. reflexivity.
Qed.

Lemma sum_nan (l : ndarray) : fold_left f_add l NaN = NaN.
Proof. induction l as [| x l IH]; [reflexivity | exact IH]. Qed.

(** With a negative maturity every path is [nan], and so is the estimate. *)
Lemma pv_nan (S_0 K T r vola : R) (I : Z) (rand : ndarray) :
  T < 0 -> rand <> [] -> Valuation.pv S_0 K T r vola I rand = NaN.
Proof.
  intros HT Hrand. destruct rand as [| z rand]; [contradiction |].
  unfold Valuation.pv, Valuation.ST, np_sum, np_sqrt.
  destruct (Rlt_dec T 0) as [_ | H]; [| contradiction].
  simpl. rewrite sum_nan. reflexivity.
Qed.

Lemma total_perm (l l' : list R) :
  Permutation l l' -> Spec.total l = Spec.total l'.
Proof.
  intros H. induction H as [| x l l' _ IH | x y l | l l' l'' _ IH1 _ IH2];
    simpl.
  - reflexivity.
  - rewrite IH. reflexivity.
  - ring.
  - rewrite IH1. exact IH2.
Qed.

Lemma total_map_le (f g : R -> R) (l : list R) :
  (forall z, f z <= g z) ->
  Spec.total (map f l) <= Spec.total (map g l).
Proof.
  intros H. induction l as [| z l IH]; simpl; [lra |].
  specialize (H z). lra.
Qed.

Lemma total_map_scal (f : R -> R) (c : R) (l : list R) :
  Spec.total (map (fun z => c * f z) l) = c * Spec.total (map f l).
Proof.
  induction l as [| z l IH]; simpl; [ring |]. rewrite IH. ring.
Qed.

Lemma total_map_minus (f : R -> R) (c : R) (l : list R) :
  Spec.total (map (fun z => f z - c) l)
  = Spec.total (map f l) - INR (length l) * c.
Proof.
  induction l as [| z l IH]; [simpl; ring |].
  cbn [map length Spec.total fold_right]. fold (Spec.total (map f l)).
  fold (Spec.total (map (fun z => f z - c) l)).
  rewrite IH, S_INR. ring.
Qed.

Lemma total_const (c : R) (l : list R) :
  Spec.total (map (fun _ => c) l) = INR (length l) * c.
Proof.
  induction l as [| z l IH]; [simpl; ring |].
  cbn [map length Spec.total fold_right]. fold (Spec.total (map (fun _ => c) l)).
  rewrite IH, S_INR. ring.
Qed.

Lemma length_pos (l : list R) : l <> [] -> 0 < INR (length l).
Proof.
  intros H. destruct l; [contradiction |]. apply lt_0_INR. simpl. lia.
Qed.

Lemma terminalPrice_pos (S_0 T r vola z : R) :
  0 <= S_0 -> 0 <= Spec.terminalPrice S_0 T r vola z.
Proof.
  intros H. unfold Spec.terminalPrice.
  apply Rmult_le_pos; [exact H | left; apply exp_pos].
Qed.

End Paths.

(* ================================================================= *)
(** ** Further verified properties *)

(** The number a call returns; 0 stands for a raised exception. *)
Definition returned (m : Py.result R) : R :=
  match m with
  | Py.Ok v => v
  | Py.Raise _ => 0
  end.

























(** X13: the Monte Carlo estimate does not depend on the order of the
    draws: on a permutation of the array of draws the estimator returns the
    same value, for every parameter set and count. *)
Theorem estimate_permutation_invariant
  (S_0 K T r vola : R) (I : Z) (zs zs' : list R) :
  Permutation zs zs' ->
  Valuation.pv S_0 K T r vola I (map Numpy.Fin zs)
  = Valuation.pv S_0 K T r vola I (map Numpy.Fin zs').
Proof.
  intros Hp. destruct (Rlt_dec T 0) as [HT | HT].
  - destruct zs as [| z zs].
    + apply Permutation_nil in Hp. subst zs'. reflexivity.
    + assert (Hne : zs' <> []).
      { intros ->. apply Permutation_sym, Permutation_nil in Hp.
        discriminate Hp. }
      rewrite !Paths.pv_nan; try exact HT; try discriminate.
      * reflexivity.
      * destruct zs'; [contradiction | discriminate].
  - rewrite !Paths.pv_sum by lra.
    rewrite (Paths.total_perm _ (map (Paths.discounted S_0 K T r vola) zs'));
      [reflexivity | apply Permutation_map; exact Hp].
Qed.

Lemma estimate_permutation_invariant_witness :
  Valuation.pv 110 115 3 0.05 0.05 2 (map Numpy.Fin [0; 1])
  = Valuation.pv 110 115 3 0.05 0.05 2 (map Numpy.Fin [1; 0]).
Proof.
  apply (estimate_permutation_invariant 110 115 3 0.05 0.05 2 [0; 1] [1; 0]).
  apply perm_swap.
Defined.





(** The sample mean of the simulated terminal prices. *)
Definition meanTerminal (S_0 T r vola : R) (zs : list R) : R :=
  Spec.mean (map (Spec.terminalPrice S_0 T r vola) zs).







Section Stream.

Variable rng_state : Type.
Variable next_normal : rng_state -> R * rng_state.

(** Drawing [m + n] variates is drawing [m], then [n] from the state that
    is left. *)
Lemma draws_app (m n : nat) (g : rng_state) :
  Valuation.draws next_normal (m + n) g
  = (fst (Valuation.draws next_normal m g)
     ++ fst (Valuation.draws next_normal n
               (snd (Valuation.draws next_normal m g))),
     snd (Valuation.draws next_normal n
            (snd (Valuation.draws next_normal m g)))).
Proof.
  revert g. induction m as [| m IH]; intros g.
  - simpl. destruct (Valuation.draws next_normal n g). reflexivity.
  - simpl. destruct (next_normal g) as [z g1]. rewrite IH.
    destruct (Valuation.draws next_normal m g1) as [zs g2]. reflexivity.
Qed.

End Stream.


